(** * tscale-challenge: dispatcher and collector of the benchmark CLI

    A shallow embedding of the controller (host-affinity dispatcher with a
    worker cap and round-robin overflow) and of the collector (latency
    aggregator) of [main.go], together with the properties of the
    specification that concern them.

    Conventions.
    - Go's [int], [int64] and [time.Duration] are 64-bit two's complement
      integers; they are modelled as [Z] with the wrap-around written out
      ([Go.wrap_int]).  [uint64] is [Z] reduced modulo [2^64].
    - A run-time panic of the Go program is a value [Go.Panic] of the
      [Go.result] type.
    - Channels are identified by the number handed out by [make]; what the
      controller goroutine does to the outside world (channels made,
      goroutines started, records sent) is recorded in the state. *)

From Stdlib Require Import ZArith Lia.
From stdpp Require Import base gmap strings list sorting.

Set Warnings "-clear-no-such-hyp".

(** ** The Go run time that the program relies on *)

Module Go.

Definition int_min : Z := (- 2 ^ 63)%Z.
Definition int_max : Z := (2 ^ 63 - 1)%Z.
Definition uint64_max : Z := (2 ^ 64 - 1)%Z.

Definition is_int (z : Z) : Prop := (int_min ≤ z ≤ int_max)%Z.
Definition is_uint64 (z : Z) : Prop := (0 ≤ z ≤ uint64_max)%Z.

(** Reduction of a mathematical integer to the 64-bit signed range. *)
Definition wrap_int (z : Z) : Z := ((z - int_min) mod 2 ^ 64 + int_min)%Z.

(** Reduction to the 64-bit unsigned range. *)
Definition wrap_uint64 (z : Z) : Z := (z mod 2 ^ 64)%Z.

(** [a + b] on [int] / [int64] / [time.Duration]. *)
Definition add (a b : Z) : Z := wrap_int (a + b).

(** [len(s)] of a slice, an [int]. *)
Definition len {A} (l : list A) : Z := Z.of_nat (length l).

Inductive panic : Type :=
| IndexOutOfRange (i n : Z)
| DivideByZero
| NilDereference.

Inductive result (A : Type) : Type :=
| Ok (a : A)
| Panic (p : panic).
Global Arguments Ok {A} a.
Global Arguments Panic {A} p.

Global Instance result_bind : MBind result := λ A B k r,
  match r with
  | Ok a => k a
  | Panic p => Panic p
  end.

(** [s[i]] with its bounds check. *)
Definition index {A} (l : list A) (i : Z) : result A :=
  if decide (0 ≤ i < len l)%Z then
    match l !! Z.to_nat i with
    | Some x => Ok x
    | None => Panic (IndexOutOfRange i (len l))
    end
  else Panic (IndexOutOfRange i (len l)).

(** [a / b] on signed 64-bit integers: truncation toward zero, panic on a
    zero divisor. *)
Definition quo (a b : Z) : result Z :=
  if decide (b = 0)%Z then Panic DivideByZero else Ok (wrap_int (a ÷ b)).

(** [*p] on a pointer that may be [nil]. *)
Definition deref {A} (p : option A) : result A :=
  match p with
  | Some v => Ok v
  | None => Panic NilDereference
  end.

End Go.

Import Go.

(** ** Controller *)

(** A channel, named by its allocation number. *)
Definition chan : Type := nat.

(** [type QueryParam struct { Host, Start, End string }] *)
Record QueryParam : Type := mkQueryParam {
  Host : string;
  Start : string;
  End_ : string;
}.

(** [type WorkerHandle struct { WorkOut chan<- *QueryParam; ControlIn <-chan interface{} }] *)
Record WorkerHandle : Type := mkWorkerHandle {
  WorkOut : chan;
  ControlIn : chan;
}.

(** [type Worker struct]: the channels of a worker goroutine (the prepared
    query is shared by all workers and carries no state of the core). *)
Record Worker : Type := mkWorker {
  receiver : chan;
  controlOut : chan;
  collectorOut : chan;
}.

(** [type Controller struct], without the database handle and the prepared
    query, and with the effects of the controller goroutine: [nextChan] is
    the allocator behind [make], [spawned] lists the workers started by
    [go worker.Run()] in order, [sent] lists the channel sends in program
    order.  [data] is passed to the loop as an argument. *)
Record Controller : Type := mkController {
  workers : list WorkerHandle;
  workerMap : gmap string WorkerHandle;
  collectorChan : chan;
  collectorControlIn : chan;
  numWorkers : Z;
  lbIndex : Z;
  nextChan : chan;
  spawned : list Worker;
  sent : list (chan * QueryParam);
}.

(** [NewController]: empty roster, empty routing table, the two collector
    channels, cursor [0]. *)
Definition NewController (numWorkers : Z) : Controller :=
  {| workers := [];
     workerMap := ∅;
     collectorChan := 0%nat;
     collectorControlIn := 1%nat;
     numWorkers := numWorkers;
     lbIndex := 0;
     nextChan := 2%nat;
     spawned := [];
     sent := [] |}.

Definition set_lbIndex (c : Controller) (i : Z) : Controller :=
  {| workers := workers c; workerMap := workerMap c;
     collectorChan := collectorChan c; collectorControlIn := collectorControlIn c;
     numWorkers := numWorkers c; lbIndex := i;
     nextChan := nextChan c; spawned := spawned c; sent := sent c |}.

(** [c.workerMap[host] = channels; channels.WorkOut <- qp] *)
Definition bind_and_send (c : Controller) (channels : WorkerHandle) (qp : QueryParam)
  : Controller :=
  {| workers := workers c; workerMap := <[Host qp := channels]> (workerMap c);
     collectorChan := collectorChan c; collectorControlIn := collectorControlIn c;
     numWorkers := numWorkers c; lbIndex := lbIndex c;
     nextChan := nextChan c; spawned := spawned c;
     sent := sent c ++ [(WorkOut channels, qp)] |}.

(** [worker.WorkOut <- qp] *)
Definition send (c : Controller) (worker : WorkerHandle) (qp : QueryParam) : Controller :=
  {| workers := workers c; workerMap := workerMap c;
     collectorChan := collectorChan c; collectorControlIn := collectorControlIn c;
     numWorkers := numWorkers c; lbIndex := lbIndex c;
     nextChan := nextChan c; spawned := spawned c;
     sent := sent c ++ [(WorkOut worker, qp)] |}.

(** The spawn branch of [Run]: two channels are made, the worker goroutine
    is started, the handle is stored in the routing table and appended to
    the roster, and the record is sent. *)
Definition spawn_worker (c : Controller) (qp : QueryParam) : Controller :=
  let workChan := nextChan c in
  let controlChan := S (nextChan c) in
  let worker := mkWorker workChan controlChan (collectorChan c) in
  let channels := mkWorkerHandle workChan controlChan in
  {| workers := workers c ++ [channels];
     workerMap := <[Host qp := channels]> (workerMap c);
     collectorChan := collectorChan c; collectorControlIn := collectorControlIn c;
     numWorkers := numWorkers c; lbIndex := lbIndex c;
     nextChan := S (S (nextChan c));
     spawned := spawned c ++ [worker];
     sent := sent c ++ [(workChan, qp)] |}.

(** [func (c *Controller) roundRobinSelect() *WorkerHandle] *)
Definition roundRobinSelect (c : Controller) : result (WorkerHandle * Controller) :=
  if decide (len (workers c) = add (lbIndex c) 1) then
    let c' := set_lbIndex c 0 in
    channels ← index (workers c') 0;
    Ok (channels, c')
  else
    channels ← index (workers c) (lbIndex c);
    Ok (channels, set_lbIndex c (add (lbIndex c) 1)).

(** The cap test of [Run]:
    [c.numWorkers > 0 && len(c.workers) == int(c.numWorkers)]. *)
Definition cap_reached (c : Controller) : bool :=
  bool_decide (0 < numWorkers c)%Z
  && bool_decide (len (workers c) = wrap_int (numWorkers c)).

(** The body of the dispatch loop of [Run], for one record. *)
Definition dispatch (c : Controller) (qp : QueryParam) : result Controller :=
  match workerMap c !! Host qp with
  | Some worker => Ok (send c worker qp)
  | None =>
      if cap_reached c then
        '(channels, c') ← roundRobinSelect c;
        Ok (bind_and_send c' channels qp)
      else Ok (spawn_worker c qp)
  end.

(** [for _, qp := range c.data { ... }] *)
Fixpoint Run_loop (c : Controller) (data : list QueryParam) : result Controller :=
  match data with
  | [] => Ok c
  | qp :: rest => c' ← dispatch c qp; Run_loop c' rest
  end.

(** The dispatch part of [Controller.Run] on a fresh controller. *)
Definition Run (numWorkers : Z) (data : list QueryParam) : result Controller :=
  Run_loop (NewController numWorkers) data.

(** ** Collector *)

(** [type WorkSample struct { OpTime time.Duration }] *)
Record WorkSample : Type := mkWorkSample {
  OpTime : Z;
}.

(** [type DataStore struct]; the two [*time.Duration] fields are options. *)
Record DataStore : Type := mkDataStore {
  numQueries : Z;
  totalProcessingTime : Z;
  minQueryTime : option Z;
  maxQueryTime : option Z;
  allQueryTimes : list Z;
}.

(** [&DataStore{}], as built by [NewCollector]. *)
Definition NewDataStore : DataStore :=
  {| numQueries := 0%Z;
     totalProcessingTime := 0%Z;
     minQueryTime := None;
     maxQueryTime := None;
     allQueryTimes := [] |}.

(** [func (c *Collector) AddWorkSample(sample WorkSample)] *)
Definition AddWorkSample (d : DataStore) (sample : WorkSample) : DataStore :=
  {| numQueries := wrap_uint64 (numQueries d + 1);
     totalProcessingTime := add (totalProcessingTime d) (OpTime sample);
     minQueryTime :=
       match minQueryTime d with
       | None => Some (OpTime sample)
       | Some m => if decide (OpTime sample < m)%Z then Some (OpTime sample) else Some m
       end;
     maxQueryTime :=
       match maxQueryTime d with
       | None => Some (OpTime sample)
       | Some m => if decide (OpTime sample > m)%Z then Some (OpTime sample) else Some m
       end;
     allQueryTimes := allQueryTimes d ++ [OpTime sample] |}.

(** [sort.Sort] on a [DurationSlice]: the slice in ascending order.  The
    ascending arrangement of a list of integers is unique
    ([sort_Sort_unique] below), so the result does not depend on the
    sorting algorithm. *)
Definition sort_Sort (s : list Z) : list Z := merge_sort Z.le s.

(** [var sum time.Duration; for _, d := range s { sum += d }] *)
Definition sum_loop (s : list Z) : Z := foldl add 0%Z s.

(** The median of the sorted slice [s], as computed by
    [calcMedianAndAverage].  [dataLen] is the length of a slice, so
    [dataLen/2] and [(dataLen/2)-1] are computed without overflow. *)
Definition median_of (s : list Z) : result Z :=
  let dataLen := len s in
  if decide (Z.rem dataLen 2 = 0%Z) then
    mid0 ← index s (dataLen ÷ 2)%Z;
    mid1 ← index s (dataLen ÷ 2 - 1)%Z;
    quo (add mid0 mid1) 2
  else index s (dataLen ÷ 2)%Z.

(** The data store after [sort.Sort] has rearranged the slice in place. *)
Definition set_allQueryTimes (d : DataStore) (s : list Z) : DataStore :=
  {| numQueries := numQueries d;
     totalProcessingTime := totalProcessingTime d;
     minQueryTime := minQueryTime d;
     maxQueryTime := maxQueryTime d;
     allQueryTimes := s |}.

(** [func (c *Collector) calcMedianAndAverage() (time.Duration, time.Duration)];
    the slice is sorted in place, so the data store is returned too. *)
Definition calcMedianAndAverage (d : DataStore) : result (Z * Z * DataStore) :=
  let s := sort_Sort (allQueryTimes d) in
  let d' := set_allQueryTimes d s in
  median ← median_of s;
  let sum := sum_loop s in
  average ← quo sum (len s);
  Ok (median, average, d').

(** The benchmark block printed by [Collector.Run]. *)
Record Report : Type := mkReport {
  report_total : Z;
  report_count : Z;
  report_min : Z;
  report_max : Z;
  report_median : Z;
  report_average : Z;
}.

(** [for sample := range c.receiver { c.AddWorkSample(sample) }] *)
Definition collect (samples : list WorkSample) : DataStore :=
  foldl AddWorkSample NewDataStore samples.

(** What [Collector.Run] does once the receiver is closed: the statistics
    are computed and the arguments of [Printf] are evaluated, the two
    pointers being dereferenced by [String()]. *)
Definition finalize (d : DataStore) : result Report :=
  '(median, average, d') ← calcMedianAndAverage d;
  mn ← deref (minQueryTime d');
  mx ← deref (maxQueryTime d');
  Ok {| report_total := totalProcessingTime d';
        report_count := numQueries d';
        report_min := mn;
        report_max := mx;
        report_median := median;
        report_average := average |}.

(** [func (c *Collector) Run()], on the samples in their order of arrival. *)
Definition Collector_Run (samples : list WorkSample) : result Report :=
  finalize (collect samples).

(** ** Auxiliary notions for the dispatch loop *)

(** The handle that the controller keeps for a worker goroutine. *)
Definition handle_of (w : Worker) : WorkerHandle :=
  mkWorkerHandle (receiver w) (controlOut w).

(** Invariant of the dispatch loop. *)
Record ctl_inv (c : Controller) : Prop := mk_ctl_inv {
  inv_uint64 : is_uint64 (numWorkers c);
  inv_cursor_nonneg : (0 ≤ lbIndex c)%Z;
  inv_cursor : lbIndex c = 0%Z ∨ (lbIndex c < len (workers c))%Z;
  inv_spawned : handle_of <$> spawned c = workers c;
  inv_cap : (1 ≤ numWorkers c ≤ int_max)%Z → (len (workers c) ≤ numWorkers c)%Z;
  inv_uncapped : numWorkers c = 0%Z → length (workers c) = size (workerMap c);
  inv_roster_sent : (length (workers c) ≤ length (sent c))%nat;
  inv_routes : ∀ ch qp, (ch, qp) ∈ sent c →
    ∃ w, workerMap c !! Host qp = Some w ∧ WorkOut w = ch;
  inv_dom : dom (workerMap c) = list_to_set (Host <$> (sent c).*2);
  inv_bound : ∀ h w, workerMap c !! h = Some w → w ∈ workers c;
}.

(** The three ways in which one iteration of the loop can succeed. *)
Inductive dispatch_case (c : Controller) (qp : QueryParam) (c' : Controller) : Prop :=
| dispatch_bound worker :
    workerMap c !! Host qp = Some worker →
    c' = send c worker qp →
    dispatch_case c qp c'
| dispatch_overflow channels c1 :
    workerMap c !! Host qp = None →
    cap_reached c = true →
    roundRobinSelect c = Ok (channels, c1) →
    c' = bind_and_send c1 channels qp →
    dispatch_case c qp c'
| dispatch_spawn :
    workerMap c !! Host qp = None →
    cap_reached c = false →
    c' = spawn_worker c qp →
    dispatch_case c qp c'.

(** The number of distinct hosts of the input. *)
Definition distinct_hosts (data : list QueryParam) : nat :=
  size (list_to_set (Host <$> data) : gset string).

(** The round-robin policy in the words of the specification: on an
    overflow assignment with cursor [i], return [roster[i]], then set the
    cursor to [(i + 1) mod |roster|]. *)
Definition spec_round_robin (roster : list WorkerHandle) (i : Z)
  : option (WorkerHandle * Z) :=
  w ← roster !! Z.to_nat i; Some (w, ((i + 1) mod len roster)%Z).

(** The workers chosen by [k] successive overflow assignments according to
    the specification, from cursor [i]. *)
Fixpoint spec_overflow_choices (roster : list WorkerHandle) (i : Z) (k : nat)
  : list WorkerHandle :=
  match k with
  | O => []
  | S k' =>
      match spec_round_robin roster i with
      | Some (w, i') => w :: spec_overflow_choices roster i' k'
      | None => []
      end
  end.

(** The workers chosen by [k] successive calls of [roundRobinSelect]. *)
Fixpoint overflow_choices (c : Controller) (k : nat) : result (list WorkerHandle) :=
  match k with
  | O => Ok []
  | S k' =>
      '(w, c') ← roundRobinSelect c;
      ws ← overflow_choices c' k';
      Ok (w :: ws)
  end.

(** Records for the hosts of a scenario; the time range plays no role in
    the core. *)
Definition query (host : string) : QueryParam := mkQueryParam host "" "".

(** The exact (mathematical) total of a list of durations. *)
Definition total_of (xs : list Z) : Z := foldr Z.add 0%Z xs.

(** [m] is the least, respectively the greatest, element of [xs]. *)
Definition is_least (m : Z) (xs : list Z) : Prop :=
  m ∈ xs ∧ ∀ x, x ∈ xs → (m ≤ x)%Z.
Definition is_greatest (m : Z) (xs : list Z) : Prop :=
  m ∈ xs ∧ ∀ x, x ∈ xs → (x ≤ m)%Z.

(** ** The pipeline as a transition system

    The controller, the workers and the collector run concurrently and
    communicate over channels.  A state of the pipeline holds the state of
    the controller and the records it has not dispatched yet, the records
    that sit in the inboxes of the workers (tagged with their channel, in
    the order in which they were sent), the samples that sit in the
    collector channel, and the data store of the collector.  The scheduler
    picks any enabled step.  Channel capacities only delay sends, so they
    remove schedules and are left out. *)

Record Pipeline : Type := mkPipeline {
  controller : Controller;
  pending : list QueryParam;
  inboxes : list (chan * QueryParam);
  in_flight : list WorkSample;
  store : DataStore;
}.

(** The pipeline when [Controller.Run] starts. *)
Definition start (numWorkers : Z) (data : list QueryParam) : Pipeline :=
  mkPipeline (NewController numWorkers) data [] [] NewDataStore.

(** Nothing is left to dispatch, to execute or to collect: the work
    channels and the collector channel are closed and drained. *)
Definition drained (p : Pipeline) : Prop :=
  pending p = [] ∧ inboxes p = [] ∧ in_flight p = [].

Section pipeline.

(** The executor: the latency measured for a query.  It is a function of
    the record, that is, deterministic.  A failing query ends the program
    ([log.Fatal]); the runs considered here are those in which every query
    succeeds. *)
Variable exec : QueryParam → Z.

(** One iteration of [Worker.Run]: the sample reported for a record. *)
Definition Worker_sample (qp : QueryParam) : WorkSample :=
  mkWorkSample (exec qp).

Inductive step : Pipeline → Pipeline → Prop :=
| step_dispatch c c' qp rest inb fl st ch :
    (* the controller dispatches the next record *)
    dispatch c qp = Ok c' →
    sent c' = sent c ++ [(ch, qp)] →
    step (mkPipeline c (qp :: rest) inb fl st)
         (mkPipeline c' rest (inb ++ [(ch, qp)]) fl st)
| step_worker c pend inb1 inb2 w qp fl st :
    (* a worker receives the oldest record of its inbox, executes the
       query and sends the sample *)
    w ∈ spawned c →
    (∀ qp', (receiver w, qp') ∉ inb1) →
    step (mkPipeline c pend (inb1 ++ (receiver w, qp) :: inb2) fl st)
         (mkPipeline c pend (inb1 ++ inb2) (fl ++ [Worker_sample qp]) st)
| step_collect c pend inb s fl st :
    (* the collector receives the oldest sample *)
    step (mkPipeline c pend inb (s :: fl) st)
         (mkPipeline c pend inb fl (AddWorkSample st s)).

(** A complete run under some schedule: from the start to a drained
    pipeline. *)
Definition runs_to (numWorkers : Z) (data : list QueryParam) (p : Pipeline) : Prop :=
  rtc step (start numWorkers data) p ∧ drained p.

(** Invariant of the pipeline: the controller has processed a prefix of
    the input, no latency is lost or duplicated on the way to the data
    store, and the data store is what [AddWorkSample] makes of the samples
    received so far. *)
Definition pipeline_inv (numWorkers : Z) (data : list QueryParam) (p : Pipeline) : Prop :=
  (∃ pre, data = pre ++ pending p ∧ Run numWorkers pre = Ok (controller p))
  ∧ allQueryTimes (store p) ++ (OpTime <$> in_flight p)
      ++ (exec <$> (inboxes p).*2) ++ (exec <$> pending p)
    ≡ₚ exec <$> data
  ∧ store p = collect (mkWorkSample <$> allQueryTimes (store p)).

End pipeline.

(** An executor for the scenarios: queries for host [h1] take 30ns, all
    others 10ns. *)
Definition scenario_exec (qp : QueryParam) : Z :=
  if decide (Host qp = "h1") then 30%Z else 10%Z.

(** ** Proof automation *)

(** Linear and non-linear arithmetic with truncating division. *)
Ltac quot_lia := Z.to_euclidean_division_equations; lia.
Ltac quot_nia := Z.to_euclidean_division_equations; nia.

(** ** Channel allocation and shutdown *)

(** The worker started by the [i]-th spawn of a fresh controller: [make]
    hands out the channels in order, after the two collector channels. *)
Definition nth_worker (i : nat) : Worker :=
  mkWorker (2 + 2 * i) (3 + 2 * i) 0.

(** The channels of the roster are those of the workers spawned so far, in
    spawn order. *)
Record roster_inv (c : Controller) : Prop := mk_roster_inv {
  roster_collectorChan : collectorChan c = 0%nat;
  roster_collectorControlIn : collectorControlIn c = 1%nat;
  roster_nextChan : nextChan c = (2 + 2 * length (spawned c))%nat;
  roster_spawned : spawned c = nth_worker <$> seq 0 (length (spawned c));
}.

(** While the cap has not been reached every host has spawned its own
    worker; afterwards the routing table only gains hosts. *)
Record count_inv (c : Controller) : Prop := mk_count_inv {
  count_le : (length (workers c) ≤ size (workerMap c))%nat;
  count_eq : cap_reached c = false → length (workers c) = size (workerMap c);
}.

(** [close(ch)]: closing a channel that is already closed panics ([None]). *)
Definition close_chan (closed : gset chan) (ch : chan) : option (gset chan) :=
  if decide (ch ∈ closed) then None else Some ({[ch]} ∪ closed).

Fixpoint close_each (closed : gset chan) (chs : list chan) : option (gset chan) :=
  match chs with
  | [] => Some closed
  | ch :: rest => closed' ← close_chan closed ch; close_each closed' rest
  end.


(** Two hosts share a worker only by overflow, and overflow never picks the
    last worker of a roster of two or more. *)
Definition owner_inv (c : Controller) : Prop :=
  ∀ h1 h2 w i,
    workers c !! i = Some w →
    workerMap c !! h1 = Some w → workerMap c !! h2 = Some w →
    h1 = h2
    ∨ ((numWorkers c ≤ int_max)%Z
       ∧ ((Z.of_nat i + 1 < numWorkers c)%Z ∨ numWorkers c = 1%Z)).

(** ** The sort interface of [DurationSlice] *)

Module DurationSlice.

(** [func (s DurationSlice) Len() int] *)
Definition Len (s : list Z) : Z := len s.

(** [func (s DurationSlice) Less(i, j int) bool] *)
Definition Less (s : list Z) (i j : Z) : result bool :=
  si ← index s i;
  sj ← index s j;
  Ok (bool_decide (si < sj)%Z).

(** [func (s DurationSlice) Swap(i, j int)]: [s[i], s[j] = s[j], s[i]].  The
    right-hand side is read first, then the two elements are written. *)
Definition Swap (s : list Z) (i j : Z) : result (list Z) :=
  sj ← index s j;
  si ← index s i;
  Ok (<[Z.to_nat j := si]> (<[Z.to_nat i := sj]> s)).

End DurationSlice.

(** ** The pipeline with bounded channels

    The inbox of a worker is made with room for [100] records and the
    sample channel with room for [200] samples; a send waits while its
    channel is full.  The steps are those of [step], guarded by the room
    left in the channel that is written, and labelled with what happens.  A
    worker step receives a record, executes the query and sends the sample
    at once. *)

Definition inbox_capacity : nat := 100.
Definition sample_capacity : nat := 200.

(** The records buffered on channel [ch], oldest first. *)
Definition on_chan (ch : chan) (l : list (chan * QueryParam)) : list QueryParam :=
  (filter (λ x, x.1 = ch) l).*2.

(** The records for host [h], in the order of the list. *)
Definition for_host (h : string) (l : list QueryParam) : list QueryParam :=
  filter (λ qp, Host qp = h) l.

Inductive label : Type :=
| Dispatched (ch : chan) (qp : QueryParam)
| Executed (w : Worker) (qp : QueryParam)
| Collected (s : WorkSample).

(** The queries executed in a run, each with the inbox it was received
    from, in the order of execution. *)
Definition executions (t : list label) : list (chan * QueryParam) :=
  omap (λ l, match l with
             | Executed w qp => Some (receiver w, qp)
             | _ => None
             end) t.

Section bounded_pipeline.

Variable exec : QueryParam → Z.

Inductive bstep : Pipeline → label → Pipeline → Prop :=
| bstep_dispatch c c' qp rest inb fl st ch :
    dispatch c qp = Ok c' →
    sent c' = sent c ++ [(ch, qp)] →
    (length (on_chan ch inb) < inbox_capacity)%nat →
    bstep (mkPipeline c (qp :: rest) inb fl st)
          (Dispatched ch qp)
          (mkPipeline c' rest (inb ++ [(ch, qp)]) fl st)
| bstep_worker c pend inb1 inb2 w qp fl st :
    w ∈ spawned c →
    (∀ qp', (receiver w, qp') ∉ inb1) →
    (length fl < sample_capacity)%nat →
    bstep (mkPipeline c pend (inb1 ++ (receiver w, qp) :: inb2) fl st)
          (Executed w qp)
          (mkPipeline c pend (inb1 ++ inb2) (fl ++ [Worker_sample exec qp]) st)
| bstep_collect c pend inb s fl st :
    bstep (mkPipeline c pend inb (s :: fl) st)
          (Collected s)
          (mkPipeline c pend inb fl (AddWorkSample st s)).

(** A run of the bounded pipeline, with the labels of its steps. *)
Inductive bruns : Pipeline → list label → Pipeline → Prop :=
| bruns_nil p : bruns p [] p
| bruns_snoc p t q l r : bruns p t q → bstep q l r → bruns p (t ++ [l]) r.

(** What is left to do in a state: a record still costs its dispatch, its
    execution and the collection of its sample. *)
Definition work_left (p : Pipeline) : nat :=
  3 * length (pending p) + 2 * length (inboxes p) + length (in_flight p).

(** Invariant of the bounded runs from the start: the invariant of the
    pipeline, the invariant of the controller, the work accounting, and the
    first-in first-out discipline of every inbox. *)
Definition bruns_inv (numWorkers : Z) (data : list QueryParam)
    (t : list label) (p : Pipeline) : Prop :=
  pipeline_inv exec numWorkers data p
  ∧ ctl_inv (controller p)
  ∧ (sent (controller p)).*2 ++ pending p = data
  ∧ (length t + work_left p = 3 * length data)%nat
  ∧ ∀ ch, on_chan ch (executions t) ++ on_chan ch (inboxes p)
          = on_chan ch (sent (controller p)).

End bounded_pipeline.

(** ** Per-worker statistics

    The revision of the collector that reports the workers spawned keeps,
    in [DataStore.workerOps], the number of samples received from each
    worker (a [map[string]uint64] keyed by the name of the worker). *)

Module WorkerOps.

(** The last statement of that [AddWorkSample]:
    [if val, exists := workerOps[w]; exists { workerOps[w] = val + 1 }
     else { workerOps[w] = 1 }]. *)
Definition record (workerOps : gmap string Z) (worker : string) : gmap string Z :=
  match workerOps !! worker with
  | Some val => <[worker := wrap_uint64 (val + 1)]> workerOps
  | None => <[worker := 1%Z]> workerOps
  end.

(** The map after the samples of the workers named in [names], in order of
    arrival, starting from the empty map of [NewCollector]. *)
Definition record_all (names : list string) : gmap string Z :=
  foldl record ∅ names.

(** The number of samples that worker [w] has sent. *)
Definition samples_of (w : string) (names : list string) : Z :=
  len (filter (λ x, x = w) names).

End WorkerOps.

(** ** Machine arithmetic *)

Section machine_arithmetic.
Local Open Scope Z_scope.

Lemma wrap_int_id z : is_int z → wrap_int z = z.
Proof.
  unfold is_int, wrap_int, int_min, int_max. intros Hz.
  rewrite Z.mod_small; lia.
Qed.

Lemma wrap_int_is_int z : is_int (wrap_int z).
Proof.
  unfold is_int, wrap_int, int_min, int_max.
  pose proof (Z.mod_pos_bound (z - - 2 ^ 63) (2 ^ 64)). lia.
Qed.

Lemma wrap_int_add_l a b : wrap_int (wrap_int a + b) = wrap_int (a + b).
Proof.
  unfold wrap_int. f_equal.
  replace ((a - int_min) mod 2 ^ 64 + int_min + b - int_min)
    with ((a - int_min) mod 2 ^ 64 + b) by lia.
  replace (a + b - int_min) with ((a - int_min) + b) by lia.
  by rewrite Zplus_mod_idemp_l.
Qed.

Lemma wrap_int_uint64_big n :
  is_uint64 n → int_max < n → wrap_int n < 0.
Proof.
  unfold is_uint64, uint64_max, wrap_int, int_min, int_max. intros Hn Hbig.
  replace (n - - 2 ^ 63) with ((n - 2 ^ 63) + 1 * 2 ^ 64) by lia.
  rewrite Z.mod_add by lia. rewrite Z.mod_small; lia.
Qed.

Lemma add_id a b : is_int (a + b) → add a b = a + b.
Proof. apply wrap_int_id. Qed.

Lemma len_nonneg {A} (l : list A) : 0 ≤ len l.
Proof. unfold len. lia. Qed.

Lemma len_app {A} (l k : list A) : len (l ++ k) = len l + len k.
Proof. unfold len. rewrite length_app. lia. Qed.

Lemma index_Ok {A} (l : list A) i x :
  index l i = Ok x ↔ 0 ≤ i < len l ∧ l !! Z.to_nat i = Some x.
Proof.
  unfold index. destruct (decide (0 ≤ i < len l)) as [Hi|Hi].
  - destruct (l !! Z.to_nat i) eqn:E; split.
    + by intros [= ->].
    + by intros [_ [= ->]].
    + done.
    + by intros [_ ?].
  - split; [done | tauto].
Qed.

Lemma index_in_range {A} (l : list A) i :
  0 ≤ i < len l → ∃ x, index l i = Ok x.
Proof.
  intros Hi. destruct (lookup_lt_is_Some_2 l (Z.to_nat i)) as [x Hx].
  { unfold len in Hi. lia. }
  exists x. by apply index_Ok.
Qed.

Lemma index_out_of_range {A} (l : list A) i :
  ¬ (0 ≤ i < len l) → index l i = Panic (IndexOutOfRange i (len l)).
Proof. intros Hi. unfold index. by rewrite decide_False. Qed.

End machine_arithmetic.

(** ** The dispatch loop: case analysis and invariant *)

(** The cap test succeeds only when the roster holds exactly [numWorkers]
    workers, and then [numWorkers] lies between [1] and the largest [int]. *)
Lemma cap_reached_true c :
  is_uint64 (numWorkers c) → cap_reached c = true →
  (1 ≤ numWorkers c ≤ int_max)%Z ∧ len (workers c) = numWorkers c.
Proof.
  intros Hu. unfold cap_reached. rewrite andb_true_iff, !bool_decide_eq_true.
  intros [Hpos Hlen].
  destruct (decide (numWorkers c ≤ int_max)%Z) as [Hle|Hgt].
  - rewrite wrap_int_id in Hlen; [lia|].
    unfold is_int, int_min. lia.
  - pose proof (wrap_int_uint64_big (numWorkers c) Hu ltac:(lia)).
    pose proof (len_nonneg (workers c)). lia.
Qed.

Lemma cap_reached_false c :
  is_uint64 (numWorkers c) → cap_reached c = false →
  numWorkers c = 0%Z ∨ (int_max < numWorkers c)%Z ∨ len (workers c) ≠ numWorkers c.
Proof.
  intros Hu. unfold cap_reached. rewrite andb_false_iff, !bool_decide_eq_false.
  intros [Hpos|Hlen].
  - left. unfold is_uint64 in Hu. lia.
  - destruct (decide (numWorkers c ≤ int_max)%Z) as [Hle|Hgt]; [|lia].
    right; right. rewrite wrap_int_id in Hlen; [done|].
    unfold is_int, int_min. unfold is_uint64 in Hu. lia.
Qed.

(** What [roundRobinSelect] returns when the cursor is inside the roster:
    the worker under the cursor and the cursor moved on by one, unless the
    cursor stands on the last worker, in which case the first worker is
    returned and the cursor is reset. *)
Lemma roundRobinSelect_in_range c :
  (len (workers c) ≤ int_max)%Z → (0 ≤ lbIndex c < len (workers c))%Z →
  ∃ w, roundRobinSelect c =
         Ok (w, set_lbIndex c (if decide (len (workers c) = lbIndex c + 1)%Z
                               then 0 else lbIndex c + 1)%Z)
     ∧ workers c !! Z.to_nat (if decide (len (workers c) = lbIndex c + 1)%Z
                              then 0 else lbIndex c)%Z = Some w.
Proof.
  intros Hmax Hcur. unfold roundRobinSelect.
  rewrite add_id by (unfold is_int, int_min, int_max in *; lia).
  destruct (decide (len (workers c) = lbIndex c + 1)%Z) as [Hlast|Hin].
  - destruct (index_in_range (workers c) 0 ltac:(lia)) as [w Hw].
    exists w. simpl. rewrite Hw. split; [done|]. by apply index_Ok in Hw as [_ ?].
  - destruct (index_in_range (workers c) (lbIndex c) Hcur) as [w Hw].
    exists w. rewrite Hw. split; [done|]. by apply index_Ok in Hw as [_ ?].
Qed.

Lemma dispatch_inv c qp c' : dispatch c qp = Ok c' → dispatch_case c qp c'.
Proof.
  unfold dispatch. destruct (workerMap c !! Host qp) as [worker|] eqn:Hm.
  - intros [= <-]. by eapply dispatch_bound.
  - destruct (cap_reached c) eqn:Hcap.
    + destruct (roundRobinSelect c) as [[channels c1]|p] eqn:Hrr; simpl; [|done].
      intros [= <-]. by eapply dispatch_overflow.
    + intros [= <-]. by eapply dispatch_spawn.
Qed.

Lemma ctl_inv_NewController n : is_uint64 n → ctl_inv (NewController n).
Proof.
  intros Hn. split; simpl; try done.
  - by left.
  - intros ?. unfold len. simpl. lia.
  - intros ch qp Hin. by apply elem_of_nil in Hin.
Qed.

Lemma hosts_snoc (l : list (chan * QueryParam)) ch qp :
  (list_to_set (Host <$> (l ++ [(ch, qp)]).*2) : gset string)
  = list_to_set (Host <$> l.*2) ∪ {[Host qp]}.
Proof. rewrite !fmap_app, list_to_set_app_L. simpl. set_solver. Qed.

Lemma ctl_inv_send c worker qp :
  ctl_inv c → workerMap c !! Host qp = Some worker → ctl_inv (send c worker qp).
Proof.
  intros [] Hm. split; simpl; try done.
  - rewrite length_app. simpl. lia.
  - intros ch qp0 [Hin|Hin]%elem_of_app; [by auto|].
    apply list_elem_of_singleton in Hin as [= -> ->]. by exists worker.
  - rewrite hosts_snoc, <-inv_dom0.
    assert (Host qp ∈ dom (workerMap c)) by (apply elem_of_dom; eauto).
    set_solver.
Qed.

Lemma ctl_inv_spawn_worker c qp :
  ctl_inv c → workerMap c !! Host qp = None → cap_reached c = false →
  ctl_inv (spawn_worker c qp).
Proof.
  intros [] Hm Hcap. split; simpl; try done.
  - right. rewrite len_app. unfold len at 2. simpl.
    destruct inv_cursor0 as [->|?]; [pose proof (len_nonneg (workers c))|]; lia.
  - by rewrite fmap_app, inv_spawned0.
  - intros Hn. rewrite len_app. unfold len at 2. simpl.
    apply cap_reached_false in Hcap as [?|[?|?]]; [lia|lia| |done].
    specialize (inv_cap0 Hn). lia.
  - intros Hn. rewrite length_app, map_size_insert_None by done.
    rewrite inv_uncapped0 by done. simpl. lia.
  - rewrite !length_app. simpl. lia.
  - intros ch qp0 [Hin|Hin]%elem_of_app.
    + destruct (inv_routes0 _ _ Hin) as (w & Hw & <-). exists w. split; [|done].
      rewrite lookup_insert_ne; [done|]. intros Heq. congruence.
    + apply list_elem_of_singleton in Hin as [= -> ->].
      eexists. rewrite lookup_insert_eq. split; done.
  - rewrite hosts_snoc, dom_insert_L, <-inv_dom0. set_solver.
  - intros h w. rewrite lookup_insert. case_decide.
    + intros [= <-]. apply elem_of_app. right. by apply list_elem_of_singleton.
    + intros Hw. apply elem_of_app. left. eauto.
Qed.

Lemma ctl_inv_overflow c qp :
  ctl_inv c → workerMap c !! Host qp = None → cap_reached c = true →
  ∃ channels c1,
    roundRobinSelect c = Ok (channels, c1)
    ∧ channels ∈ workers c
    ∧ ctl_inv (bind_and_send c1 channels qp).
Proof.
  intros [] Hm Hcap.
  destruct (cap_reached_true c inv_uint65 Hcap) as [Hn Hlen].
  assert (0 ≤ lbIndex c < len (workers c))%Z as Hcur by lia.
  destruct (roundRobinSelect_in_range c ltac:(lia) Hcur) as (w & Hrr & Hw).
  eexists _, _. split; [exact Hrr|].
  assert (w ∈ workers c) as Hin by (apply list_elem_of_lookup; eauto).
  split; [done|]. split; simpl; try done.
  - case_decide; lia.
  - case_decide; [by left|right; lia].
  - lia.
  - rewrite length_app. simpl. lia.
  - intros ch qp0 [Hin0|Hin0]%elem_of_app.
    + destruct (inv_routes0 _ _ Hin0) as (w0 & Hw0 & <-). exists w0. split; [|done].
      rewrite lookup_insert_ne; [done|]. intros Heq. congruence.
    + apply list_elem_of_singleton in Hin0 as [= -> ->].
      eexists. rewrite lookup_insert_eq. split; done.
  - rewrite hosts_snoc, dom_insert_L, <-inv_dom0. set_solver.
  - intros h w0. rewrite lookup_insert. destruct (decide (Host qp = h)).
    + by intros [= <-].
    + eauto.
Qed.

(** One iteration of the loop never panics from a state that satisfies the
    invariant; it keeps the invariant, the cap and every binding of the
    routing table, and sends exactly the record it was given. *)
Lemma dispatch_total c qp :
  ctl_inv c →
  ∃ c', dispatch c qp = Ok c'
      ∧ ctl_inv c'
      ∧ numWorkers c' = numWorkers c
      ∧ workerMap c ⊆ workerMap c'
      ∧ (∃ ch, sent c' = sent c ++ [(ch, qp)]).
Proof.
  intros Hinv. unfold dispatch.
  destruct (workerMap c !! Host qp) as [worker|] eqn:Hm.
  - eexists. split; [done|]. split; [by apply ctl_inv_send|].
    repeat split; simpl; eauto.
  - destruct (cap_reached c) eqn:Hcap.
    + destruct (ctl_inv_overflow c qp Hinv Hm Hcap) as (channels & c1 & Hrr & _ & Hinv').
      rewrite Hrr. simpl. eexists. split; [done|]. split; [done|].
      unfold roundRobinSelect in Hrr.
      assert (workerMap c1 = workerMap c ∧ numWorkers c1 = numWorkers c ∧ sent c1 = sent c)
        as (Hmap & Hnum & Hsent).
      { destruct (decide _); simpl in Hrr;
          destruct (index _ _); simpl in Hrr; [| done | | done];
          by injection Hrr as <- <-. }
      repeat split; simpl.
      * done.
      * rewrite Hmap. by apply insert_subseteq.
      * rewrite Hsent. eauto.
    + eexists. split; [done|]. split; [by apply ctl_inv_spawn_worker|].
      repeat split; simpl; eauto. by apply insert_subseteq.
Qed.

Lemma Run_loop_app c l1 l2 :
  Run_loop c (l1 ++ l2) = c1 ← Run_loop c l1; Run_loop c1 l2.
Proof.
  revert c. induction l1 as [|qp l1 IH]; intros c; simpl; [done|].
  destruct (dispatch c qp) as [c'|p]; simpl; [apply IH | done].
Qed.

(** The loop never panics from a state that satisfies the invariant. *)
Lemma Run_loop_total data : ∀ c,
  ctl_inv c →
  ∃ c', Run_loop c data = Ok c'
      ∧ ctl_inv c'
      ∧ numWorkers c' = numWorkers c
      ∧ workerMap c ⊆ workerMap c'
      ∧ (sent c').*2 = (sent c).*2 ++ data.
Proof.
  induction data as [|qp rest IH]; intros c Hinv; simpl.
  - exists c. rewrite app_nil_r. by split_and!.
  - destruct (dispatch_total c qp Hinv) as (c1 & -> & Hinv1 & Hn1 & Hsub1 & ch & Hs1).
    destruct (IH c1 Hinv1) as (c' & Hrun & Hinv' & Hn' & Hsub' & Hs'). simpl.
    exists c'. split; [done|]. split; [done|]. split; [congruence|].
    split; [by etrans|].
    rewrite Hs', Hs1, fmap_app. simpl. by rewrite <-app_assoc.
Qed.

Lemma Run_total n data :
  is_uint64 n →
  ∃ fin, Run n data = Ok fin ∧ ctl_inv fin ∧ numWorkers fin = n ∧ (sent fin).*2 = data.
Proof.
  intros Hn.
  destruct (Run_loop_total data (NewController n) (ctl_inv_NewController n Hn))
    as (fin & Hrun & Hinv & Hnum & _ & Hsent).
  exists fin. by split_and!.
Qed.

(** A run over a prefix of the input is an earlier state of the run over the
    whole input: its bindings are still there at the end. *)
Lemma Run_prefix n pre post mid fin :
  is_uint64 n → Run n pre = Ok mid → Run n (pre ++ post) = Ok fin →
  workerMap mid ⊆ workerMap fin ∧ sent mid `prefix_of` sent fin.
Proof.
  unfold Run. intros Hn Hmid. rewrite Run_loop_app, Hmid. simpl.
  destruct (Run_total n pre Hn) as (mid' & Hmid' & Hinv & _).
  unfold Run in Hmid'. rewrite Hmid in Hmid'. injection Hmid' as <-.
  clear Hmid. revert mid Hinv. induction post as [|qp post IH]; intros mid Hinv; simpl.
  - by intros [= <-].
  - destruct (dispatch_total mid qp Hinv) as (c1 & -> & Hinv1 & _ & Hsub1 & ch & Hs1).
    simpl. intros Hfin. destruct (IH c1 Hinv1 Hfin) as [Hsub Hpre].
    split; [by etrans|]. etrans; [|exact Hpre]. rewrite Hs1. by apply prefix_app_r.
Qed.

(** ** Dispatcher: properties *)

(** C3. Host affinity.  The loop ends without a panic; every record of the
    input is sent, in input order, on the work channel of the worker that
    the routing table binds to its host; two records with the same host go
    to the same worker; and a binding present after any prefix of the input
    is still present, unchanged, at the end of the run. *)
Theorem host_affinity (n : Z) (data : list QueryParam) :
  is_uint64 n →
  ∃ fin, Run n data = Ok fin
    ∧ (sent fin).*2 = data
    ∧ (∀ i ch qp, sent fin !! i = Some (ch, qp) →
         ∃ w, workerMap fin !! Host qp = Some w ∧ WorkOut w = ch)
    ∧ (∀ i j ch1 qp1 ch2 qp2,
         sent fin !! i = Some (ch1, qp1) → sent fin !! j = Some (ch2, qp2) →
         Host qp1 = Host qp2 → ch1 = ch2)
    ∧ (∀ pre post mid, data = pre ++ post → Run n pre = Ok mid →
         sent mid `prefix_of` sent fin
         ∧ ∀ h w, workerMap mid !! h = Some w → workerMap fin !! h = Some w).
Proof.
  intros Hn. destruct (Run_total n data Hn) as (fin & Hrun & Hinv & _ & Hsent).
  exists fin. split_and!; [done | done | | |].
  - intros i ch qp Hi. apply (inv_routes _ Hinv). by eapply list_elem_of_lookup_2.
  - intros i j ch1 qp1 ch2 qp2 Hi Hj Hhost.
    destruct (inv_routes _ Hinv ch1 qp1) as (w1 & Hw1 & <-);
      [by eapply list_elem_of_lookup_2|].
    destruct (inv_routes _ Hinv ch2 qp2) as (w2 & Hw2 & <-);
      [by eapply list_elem_of_lookup_2|].
    rewrite Hhost in Hw1. congruence.
  - intros pre post mid -> Hmid.
    destruct (Run_prefix n pre post mid fin Hn Hmid Hrun) as [Hsub Hpre].
    split; [done|]. intros h w Hw. by eapply lookup_weaken.
Qed.

Lemma host_affinity_witness :
  is_uint64 2 ∧
  ∃ fin, Run 2 (query <$> ["h1"; "h2"; "h3"; "h3"; "h1"; "h2"]) = Ok fin
    ∧ (sent fin).*2 = query <$> ["h1"; "h2"; "h3"; "h3"; "h1"; "h2"]
    ∧ (∀ i ch qp, sent fin !! i = Some (ch, qp) →
         ∃ w, workerMap fin !! Host qp = Some w ∧ WorkOut w = ch)
    ∧ (∀ i j ch1 qp1 ch2 qp2,
         sent fin !! i = Some (ch1, qp1) → sent fin !! j = Some (ch2, qp2) →
         Host qp1 = Host qp2 → ch1 = ch2)
    ∧ (∀ pre post mid,
         query <$> ["h1"; "h2"; "h3"; "h3"; "h1"; "h2"] = pre ++ post →
         Run 2 pre = Ok mid →
         sent mid `prefix_of` sent fin
         ∧ ∀ h w, workerMap mid !! h = Some w → workerMap fin !! h = Some w).
Proof.
  split; [unfold is_uint64, uint64_max; lia|].
  apply (host_affinity 2 (query <$> ["h1"; "h2"; "h3"; "h3"; "h1"; "h2"])).
  unfold is_uint64, uint64_max; lia.
Defined.

(** C5. Worker cap.  With a positive cap the number of workers spawned
    never exceeds [max(1, max_workers)]; without a cap it is the number of
    distinct hosts of the input.  The input is a Go slice, whose length is
    an [int]. *)
Theorem worker_cap (n : Z) (data : list QueryParam) :
  is_uint64 n → (len data ≤ int_max)%Z →
  ∃ fin, Run n data = Ok fin
    ∧ ((0 < n)%Z → (len (spawned fin) ≤ Z.max 1 n)%Z)
    ∧ (n = 0%Z → length (spawned fin) = distinct_hosts data).
Proof.
  intros Hn Hdata. destruct (Run_total n data Hn) as (fin & Hrun & Hinv & Hnum & Hsent).
  exists fin. split; [done|].
  assert (length (spawned fin) = length (workers fin)) as Hlen.
  { by rewrite <-(inv_spawned _ Hinv), length_fmap. }
  split.
  - intros Hpos. unfold len in *. rewrite Hlen.
    destruct (decide (n ≤ int_max)%Z) as [Hle|Hgt].
    + pose proof (inv_cap _ Hinv) as Hcap. rewrite Hnum in Hcap. unfold len in Hcap. lia.
    + pose proof (inv_roster_sent _ Hinv) as Hrs.
      rewrite <-Hsent, length_fmap in Hdata. lia.
  - intros ->. rewrite Hlen, (inv_uncapped _ Hinv) by done.
    unfold distinct_hosts. by rewrite <-size_dom, (inv_dom _ Hinv), Hsent.
Qed.

Lemma worker_cap_witness :
  is_uint64 2 ∧ (len (query <$> ["h1"; "h2"; "h3"; "h3"; "h1"; "h2"]) ≤ int_max)%Z ∧
  ∃ fin, Run 2 (query <$> ["h1"; "h2"; "h3"; "h3"; "h1"; "h2"]) = Ok fin
    ∧ ((0 < 2)%Z → (len (spawned fin) ≤ Z.max 1 2)%Z)
    ∧ (2%Z = 0%Z →
       length (spawned fin) = distinct_hosts (query <$> ["h1"; "h2"; "h3"; "h3"; "h1"; "h2"])).
Proof.
  split; [unfold is_uint64, uint64_max; lia|].
  split; [unfold len, int_max; simpl; lia|].
  apply (worker_cap 2 (query <$> ["h1"; "h2"; "h3"; "h3"; "h1"; "h2"])).
  - unfold is_uint64, uint64_max; lia.
  - unfold len, int_max; simpl; lia.
Defined.

(** C10. Bounds in [roundRobinSelect].  The loop never panics, and in
    every state it reaches in which the cap test succeeds (the only place
    where [roundRobinSelect] is called) the roster holds exactly
    [max_workers >= 1] workers and the cursor is inside the roster, so that
    [workers[0]] and [workers[lbIndex]] are in range and the call returns. *)
Theorem roundRobinSelect_in_bounds (n : Z) (data : list QueryParam) :
  is_uint64 n →
  ∃ c, Run n data = Ok c
    ∧ (cap_reached c = true →
         len (workers c) = n ∧ (1 ≤ n)%Z
         ∧ (0 ≤ lbIndex c < len (workers c))%Z
         ∧ (∃ w0, index (workers c) 0 = Ok w0)
         ∧ (∃ w, index (workers c) (lbIndex c) = Ok w)
         ∧ (∃ w c', roundRobinSelect c = Ok (w, c') ∧ w ∈ workers c
                    ∧ (0 ≤ lbIndex c' < len (workers c'))%Z)).
Proof.
  intros Hn. destruct (Run_total n data Hn) as (c & Hrun & Hinv & Hnum & _).
  exists c. split; [done|]. intros Hcap.
  destruct (cap_reached_true c (inv_uint64 _ Hinv) Hcap) as [Hrange Hlen].
  pose proof (inv_cursor_nonneg _ Hinv) as Hnonneg.
  pose proof (inv_cursor _ Hinv) as Hcur.
  assert (0 ≤ lbIndex c < len (workers c))%Z as Hin by lia.
  split; [congruence|]. split; [lia|]. split; [done|]. split_and!.
  - apply index_in_range. lia.
  - by apply index_in_range.
  - destruct (roundRobinSelect_in_range c ltac:(lia) Hin) as (w & Hrr & Hw).
    eexists _, _. split; [exact Hrr|]. split.
    + apply list_elem_of_lookup. eauto.
    + simpl. case_decide; lia.
Qed.

Lemma roundRobinSelect_in_bounds_witness :
  is_uint64 2 ∧
  ∃ c, Run 2 (query <$> ["h1"; "h2"; "h3"]) = Ok c
    ∧ (cap_reached c = true →
         len (workers c) = 2%Z ∧ (1 ≤ 2)%Z
         ∧ (0 ≤ lbIndex c < len (workers c))%Z
         ∧ (∃ w0, index (workers c) 0 = Ok w0)
         ∧ (∃ w, index (workers c) (lbIndex c) = Ok w)
         ∧ (∃ w c', roundRobinSelect c = Ok (w, c') ∧ w ∈ workers c
                    ∧ (0 ≤ lbIndex c' < len (workers c'))%Z)).
Proof.
  split; [unfold is_uint64, uint64_max; lia|].
  apply (roundRobinSelect_in_bounds 2 (query <$> ["h1"; "h2"; "h3"])).
  unfold is_uint64, uint64_max; lia.
Defined.

(** C1.  With a cap of two workers and four distinct hosts, the third and
    the fourth host are overflow assignments.  The specification's policy
    gives them to the first and to the second worker; [roundRobinSelect]
    gives both to the first worker, and in fact every later one too: the
    cursor is reset as soon as it reaches the last worker, before that
    worker has been returned. *)
Theorem roundRobinSelect_cap2_repeats_first_worker :
  let W0 := mkWorkerHandle 2 3 in
  let W1 := mkWorkerHandle 4 5 in
  ∃ capped fin,
    Run 2 (query <$> ["h1"; "h2"]) = Ok capped
    ∧ workers capped = [W0; W1] ∧ lbIndex capped = 0%Z ∧ cap_reached capped = true
    ∧ overflow_choices capped 4 = Ok [W0; W0; W0; W0]
    ∧ spec_overflow_choices (workers capped) 0 4 = [W0; W1; W0; W1]
    ∧ Run 2 (query <$> ["h1"; "h2"; "h3"; "h4"]) = Ok fin
    ∧ workerMap fin !! "h3" = Some W0
    ∧ workerMap fin !! "h4" = Some W0
    ∧ workerMap fin !! "h4" ≠ Some W1.
Proof.
  intros W0 W1.
  destruct (Run 2 (query <$> ["h1"; "h2"])) as [capped|] eqn:Hcapped;
    [|by vm_compute in Hcapped].
  destruct (Run 2 (query <$> ["h1"; "h2"; "h3"; "h4"])) as [fin|] eqn:Hfin;
    [|by vm_compute in Hfin].
  exists capped, fin.
  vm_compute in Hcapped. injection Hcapped as <-.
  vm_compute in Hfin. injection Hfin as <-.
  split_and!; try done.
Qed.

(** The worker returned by [roundRobinSelect] is never the one in the last
    position of a roster of two or more workers: when the cursor stands on
    that position, the first worker is returned instead. *)
Lemma roundRobinSelect_never_last c w c' :
  (2 ≤ len (workers c) ≤ int_max)%Z → (0 ≤ lbIndex c < len (workers c))%Z →
  roundRobinSelect c = Ok (w, c') →
  (∃ j, (j < length (workers c) - 1)%nat ∧ workers c !! j = Some w)
  ∧ workers c' = workers c ∧ (0 ≤ lbIndex c' < len (workers c'))%Z.
Proof.
  intros Hlen Hcur Hrr.
  destruct (roundRobinSelect_in_range c ltac:(lia) ltac:(lia)) as (w' & Hrr' & Hw').
  rewrite Hrr in Hrr'. injection Hrr' as -> ->. simpl.
  unfold len in *. split; [|split; [done|]].
  - eexists. split; [|exact Hw']. case_decide; lia.
  - case_decide; lia.
Qed.

(** ** Collector: running aggregates *)

Section aggregates.
Local Open Scope Z_scope.

Lemma wrap_uint64_id a : is_uint64 a → wrap_uint64 a = a.
Proof.
  unfold is_uint64, uint64_max, wrap_uint64. intros Ha.
  rewrite Z.mod_small; lia.
Qed.

Lemma wrap_uint64_succ a : wrap_uint64 (wrap_uint64 a + 1) = wrap_uint64 (a + 1).
Proof. unfold wrap_uint64. by rewrite Zplus_mod_idemp_l. Qed.

Lemma total_of_app xs ys : total_of (xs ++ ys) = total_of xs + total_of ys.
Proof.
  unfold total_of. induction xs as [|x xs IH]; simpl; [done|].
  rewrite IH. lia.
Qed.

Lemma total_of_Permutation xs ys : xs ≡ₚ ys → total_of xs = total_of ys.
Proof.
  unfold total_of. induction 1; simpl; lia.
Qed.

(** The summation loop computes the exact total, reduced to 64 bits. *)
Lemma sum_loop_from a s : foldl add (wrap_int a) s = wrap_int (a + total_of s).
Proof.
  revert a. induction s as [|x s IH]; intros a; simpl.
  - by rewrite Z.add_0_r.
  - unfold add at 2. rewrite wrap_int_add_l, IH. f_equal. lia.
Qed.

Lemma sum_loop_spec s : sum_loop s = wrap_int (total_of s).
Proof.
  unfold sum_loop. change (foldl add 0 s) with (foldl add (wrap_int 0) s).
  by rewrite sum_loop_from.
Qed.

Lemma collect_snoc l s : collect (l ++ [s]) = AddWorkSample (collect l) s.
Proof. unfold collect. by rewrite foldl_snoc. Qed.

Lemma collect_allQueryTimes l : allQueryTimes (collect l) = OpTime <$> l.
Proof.
  induction l as [|s l IH] using rev_ind; [done|].
  rewrite collect_snoc, fmap_app. simpl. by rewrite IH.
Qed.

Lemma collect_numQueries l : numQueries (collect l) = wrap_uint64 (len l).
Proof.
  induction l as [|s l IH] using rev_ind; [done|].
  rewrite collect_snoc, len_app. simpl. rewrite IH. apply wrap_uint64_succ.
Qed.

Lemma collect_totalProcessingTime l :
  totalProcessingTime (collect l) = wrap_int (total_of (OpTime <$> l)).
Proof.
  induction l as [|s l IH] using rev_ind; [done|].
  rewrite collect_snoc, fmap_app, total_of_app. simpl. rewrite IH.
  unfold add. rewrite wrap_int_add_l. f_equal. lia.
Qed.

Lemma is_least_snoc m xs s :
  is_least m xs → is_least (if decide (s < m) then s else m) (xs ++ [s]).
Proof.
  intros [Hin Hle]. split.
  - case_decide; set_solver.
  - intros x [Hx|Hx]%elem_of_app.
    + specialize (Hle x Hx). case_decide; lia.
    + apply list_elem_of_singleton in Hx as ->. case_decide; lia.
Qed.

Lemma is_greatest_snoc m xs s :
  is_greatest m xs → is_greatest (if decide (s > m) then s else m) (xs ++ [s]).
Proof.
  intros [Hin Hle]. split.
  - case_decide; set_solver.
  - intros x [Hx|Hx]%elem_of_app.
    + specialize (Hle x Hx). case_decide; lia.
    + apply list_elem_of_singleton in Hx as ->. case_decide; lia.
Qed.

Lemma is_least_singleton s : is_least s [s].
Proof. split; [set_solver|]. intros x ->%list_elem_of_singleton. lia. Qed.

Lemma is_greatest_singleton s : is_greatest s [s].
Proof. split; [set_solver|]. intros x ->%list_elem_of_singleton. lia. Qed.

(** The minimum pointer is [nil] exactly before the first sample, and
    afterwards points to the least sample seen. *)
Lemma collect_minQueryTime l :
  match minQueryTime (collect l) with
  | None => l = []
  | Some m => l ≠ [] ∧ is_least m (OpTime <$> l)
  end.
Proof.
  induction l as [|s l IH] using rev_ind; [done|].
  rewrite collect_snoc, fmap_app. simpl.
  destruct (minQueryTime (collect l)) as [m|].
  - destruct IH as [_ IH]. apply (is_least_snoc _ _ (OpTime s)) in IH.
    case_decide; (split; [by destruct l|done]).
  - subst l. split; [done|]. apply is_least_singleton.
Qed.

Lemma collect_maxQueryTime l :
  match maxQueryTime (collect l) with
  | None => l = []
  | Some m => l ≠ [] ∧ is_greatest m (OpTime <$> l)
  end.
Proof.
  induction l as [|s l IH] using rev_ind; [done|].
  rewrite collect_snoc, fmap_app. simpl.
  destruct (maxQueryTime (collect l)) as [m|].
  - destruct IH as [_ IH]. apply (is_greatest_snoc _ _ (OpTime s)) in IH.
    case_decide; (split; [by destruct l|done]).
  - subst l. split; [done|]. apply is_greatest_singleton.
Qed.

End aggregates.

(** C6.  Invariants of the running aggregates.  After any sequence of
    [AddWorkSample] calls on a fresh data store: the count is the length of
    the retained sample vector, which holds the samples in arrival order;
    the running total is the total of the retained samples; the minimum and
    the maximum are set exactly when the count is positive, and are then
    the least and the greatest sample.  The count is a [uint64] and the
    total an [int64]: the statement is for runs within these ranges. *)
Theorem AddWorkSample_invariants (samples : list WorkSample) :
  (len samples ≤ uint64_max)%Z →
  is_int (total_of (OpTime <$> samples)) →
  let d := collect samples in
  numQueries d = len (allQueryTimes d)
  ∧ allQueryTimes d = OpTime <$> samples
  ∧ totalProcessingTime d = total_of (allQueryTimes d)
  ∧ (is_Some (minQueryTime d) ↔ (0 < numQueries d)%Z)
  ∧ (is_Some (maxQueryTime d) ↔ (0 < numQueries d)%Z)
  ∧ (∀ m, minQueryTime d = Some m → is_least m (allQueryTimes d))
  ∧ (∀ m, maxQueryTime d = Some m → is_greatest m (allQueryTimes d)).
Proof.
  intros Hlen Htotal d.
  assert (numQueries d = len samples) as Hcount.
  { unfold d. rewrite collect_numQueries. apply wrap_uint64_id.
    split; [apply len_nonneg | done]. }
  assert (allQueryTimes d = OpTime <$> samples) as Hall by apply collect_allQueryTimes.
  pose proof (collect_minQueryTime samples) as Hmin.
  pose proof (collect_maxQueryTime samples) as Hmax.
  fold d in Hmin, Hmax.
  assert ((0 < numQueries d)%Z ↔ samples ≠ []) as Hpos.
  { rewrite Hcount. unfold len. destruct samples; simpl; split; (done || lia). }
  split_and!.
  - rewrite Hcount, Hall. unfold len. by rewrite length_fmap.
  - done.
  - rewrite Hall. unfold d. rewrite collect_totalProcessingTime. by apply wrap_int_id.
  - rewrite Hpos. destruct (minQueryTime d); split.
    + intros _. by destruct Hmin.
    + by eauto.
    + by intros [? ?].
    + done.
  - rewrite Hpos. destruct (maxQueryTime d); split.
    + intros _. by destruct Hmax.
    + by eauto.
    + by intros [? ?].
    + done.
  - intros m Hm. rewrite Hm in Hmin. rewrite Hall. by destruct Hmin.
  - intros m Hm. rewrite Hm in Hmax. rewrite Hall. by destruct Hmax.
Qed.

Lemma AddWorkSample_invariants_witness :
  (len (mkWorkSample <$> [5; 1; 3]%Z) ≤ uint64_max)%Z ∧
  is_int (total_of (OpTime <$> (mkWorkSample <$> [5; 1; 3]%Z))) ∧
  let d := collect (mkWorkSample <$> [5; 1; 3]%Z) in
  numQueries d = len (allQueryTimes d)
  ∧ allQueryTimes d = OpTime <$> (mkWorkSample <$> [5; 1; 3]%Z)
  ∧ totalProcessingTime d = total_of (allQueryTimes d)
  ∧ (is_Some (minQueryTime d) ↔ (0 < numQueries d)%Z)
  ∧ (is_Some (maxQueryTime d) ↔ (0 < numQueries d)%Z)
  ∧ (∀ m, minQueryTime d = Some m → is_least m (allQueryTimes d))
  ∧ (∀ m, maxQueryTime d = Some m → is_greatest m (allQueryTimes d)).
Proof.
  split; [unfold len, uint64_max; simpl; lia|].
  split; [unfold is_int, int_min, int_max; simpl; lia|].
  apply (AddWorkSample_invariants (mkWorkSample <$> [5; 1; 3]%Z)).
  - unfold len, uint64_max; simpl; lia.
  - unfold is_int, int_min, int_max; simpl; lia.
Defined.

(** ** Collector: finalization *)

Section finalization.
Local Open Scope Z_scope.

Lemma sort_Sort_Sorted xs : Sorted Z.le (sort_Sort xs).
Proof. apply (Sorted_merge_sort Z.le). Qed.

Lemma sort_Sort_Permutation xs : sort_Sort xs ≡ₚ xs.
Proof. apply (merge_sort_Permutation Z.le). Qed.

(** Any ascending rearrangement of the slice is the one computed by
    [sort_Sort]: the model does not depend on the algorithm behind
    [sort.Sort]. *)
Lemma sort_Sort_unique xs s : Sorted Z.le s → s ≡ₚ xs → s = sort_Sort xs.
Proof.
  intros Hs Hp. apply (Sorted_unique Z.le); [done | apply sort_Sort_Sorted |].
  by rewrite Hp, sort_Sort_Permutation.
Qed.

Lemma sort_Sort_len xs : len (sort_Sort xs) = len xs.
Proof. unfold len. by rewrite (Permutation_length (sort_Sort_Permutation xs)). Qed.

Lemma sort_Sort_nil xs : sort_Sort xs = [] ↔ xs = [].
Proof.
  split; [|by intros ->].
  intros Hs. apply Permutation_nil_r. rewrite <-Hs. symmetry. apply sort_Sort_Permutation.
Qed.

Lemma len_pos {A} (l : list A) : l ≠ [] → 1 ≤ len l.
Proof. unfold len. destruct l; simpl; [done | lia]. Qed.

Lemma rem2_odd n : 0 ≤ n → (Z.rem n 2 = 0 ↔ Z.odd n = false).
Proof.
  intros Hn. rewrite Z.rem_mod_nonneg, Zmod_odd by lia.
  destruct (Z.odd n); split; (done || lia).
Qed.

(** The median of a non-empty slice, with the machine arithmetic of the
    program: no index is out of range. *)
Lemma median_of_nonempty s :
  s ≠ [] →
  ∃ median, median_of s = Ok median
    ∧ if Z.odd (len s) then s !! Z.to_nat (len s ÷ 2) = Some median
      else ∃ mid0 mid1,
          s !! Z.to_nat (len s ÷ 2) = Some mid0
          ∧ s !! Z.to_nat (len s ÷ 2 - 1) = Some mid1
          ∧ median = wrap_int (add mid0 mid1 ÷ 2).
Proof.
  intros Hne. pose proof (len_pos s Hne) as Hlen. unfold median_of.
  pose proof (rem2_odd (len s) ltac:(lia)) as Hodd.
  destruct (decide (Z.rem (len s) 2 = 0)) as [Heven|Hnot].
  - rewrite (proj1 Hodd Heven).
    destruct (index_in_range s (len s ÷ 2) ltac:(quot_lia)) as [mid0 H0].
    destruct (index_in_range s (len s ÷ 2 - 1) ltac:(quot_lia)) as [mid1 H1].
    rewrite H0, H1. simpl. unfold quo. rewrite decide_False by lia.
    eexists. split; [done|]. exists mid0, mid1.
    apply index_Ok in H0 as [_ H0]. apply index_Ok in H1 as [_ H1]. done.
  - destruct (Z.odd (len s)); [|by destruct Hnot; apply Hodd].
    destruct (index_in_range s (len s ÷ 2) ltac:(quot_lia)) as [mid H0].
    exists mid. split; [done|]. by apply index_Ok in H0 as [_ H0].
Qed.

(** Finalization of a non-empty data store returns, with the machine
    arithmetic of the program. *)
Lemma calcMedianAndAverage_nonempty d :
  allQueryTimes d ≠ [] →
  let s := sort_Sort (allQueryTimes d) in
  ∃ median,
    calcMedianAndAverage d =
      Ok (median, wrap_int (sum_loop s ÷ len s), set_allQueryTimes d s)
    ∧ if Z.odd (len s) then s !! Z.to_nat (len s ÷ 2) = Some median
      else ∃ mid0 mid1,
          s !! Z.to_nat (len s ÷ 2) = Some mid0
          ∧ s !! Z.to_nat (len s ÷ 2 - 1) = Some mid1
          ∧ median = wrap_int (add mid0 mid1 ÷ 2).
Proof.
  intros Hne s.
  assert (s ≠ []) as Hs by (unfold s; by rewrite sort_Sort_nil).
  destruct (median_of_nonempty s Hs) as (median & Hmed & Hspec).
  exists median. split; [|done].
  unfold calcMedianAndAverage. fold s. rewrite Hmed. simpl.
  unfold quo. pose proof (len_pos s Hs). by rewrite decide_False by lia.
Qed.

(** Finalization of an empty data store: the first slice access is out of
    range. *)
Lemma calcMedianAndAverage_empty d :
  allQueryTimes d = [] → calcMedianAndAverage d = Panic (IndexOutOfRange 0 0).
Proof. intros Hd. unfold calcMedianAndAverage. by rewrite Hd. Qed.

Lemma total_of_lookup_le s i a :
  Forall (λ x, 0 ≤ x) s → s !! i = Some a → 0 ≤ a ≤ total_of s.
Proof.
  intros Hs. revert i. induction Hs as [|x s Hx Hs IH]; intros i; [done|].
  assert (0 ≤ total_of s) as Hnn.
  { clear IH. induction Hs as [|y s' Hy Hs' IH']; simpl; [done|].
    unfold total_of in *. simpl. lia. }
  destruct i as [|i]; simpl.
  - intros [= ->]. change (0 ≤ a ≤ a + total_of s). lia.
  - intros Hi. specialize (IH i Hi). change (0 ≤ a ≤ x + total_of s). lia.
Qed.

Lemma total_of_lookup_pair_le s i j a b :
  Forall (λ x, 0 ≤ x) s → (i < j)%nat →
  s !! i = Some a → s !! j = Some b → a + b ≤ total_of s.
Proof.
  intros Hs. revert i j. induction Hs as [|x s Hx Hs IH]; intros i j Hij; [done|].
  destruct j as [|j]; [lia|]. destruct i as [|i]; simpl.
  - intros [= ->] Hj. pose proof (total_of_lookup_le s j b Hs Hj).
    change (a + b ≤ a + total_of s). lia.
  - intros Hi Hj. specialize (IH i j ltac:(lia) Hi Hj).
    change (a + b ≤ x + total_of s). lia.
Qed.

Lemma total_of_bounds xs lo hi :
  Forall (λ x, lo ≤ x ≤ hi) xs → len xs * lo ≤ total_of xs ≤ len xs * hi.
Proof.
  induction 1 as [|x xs Hx Hxs IH]; [done|].
  change (total_of (x :: xs)) with (x + total_of xs).
  unfold len in *. simpl length. lia.
Qed.

Lemma quot_between x n lo hi :
  0 < n → n * lo ≤ x ≤ n * hi → lo ≤ x ÷ n ≤ hi.
Proof. intros. quot_nia. Qed.

End finalization.

Section statistics.
Local Open Scope Z_scope.

(** For non-negative latencies whose total fits a [time.Duration], no
    addition of the finalization overflows. *)
Lemma calcMedianAndAverage_exact d :
  let xs := allQueryTimes d in
  let s := sort_Sort xs in
  xs ≠ [] → Forall (λ x, 0 ≤ x) xs → total_of xs ≤ int_max →
  ∃ median,
    calcMedianAndAverage d = Ok (median, total_of xs ÷ len xs, set_allQueryTimes d s)
    ∧ if Z.odd (len xs) then s !! Z.to_nat (len xs ÷ 2) = Some median
      else ∃ mid0 mid1,
          s !! Z.to_nat (len xs ÷ 2) = Some mid0
          ∧ s !! Z.to_nat (len xs ÷ 2 - 1) = Some mid1
          ∧ median = (mid0 + mid1) ÷ 2.
Proof.
  intros xs s Hne Hnn Htotal.
  destruct (calcMedianAndAverage_nonempty d Hne) as (median & Hcalc & Hmed).
  fold xs in Hcalc, Hmed. fold s in Hcalc, Hmed.
  assert (Forall (λ x, 0 ≤ x) s) as Hs by (unfold s; by rewrite sort_Sort_Permutation).
  assert (total_of s = total_of xs) as Hts
    by apply total_of_Permutation, sort_Sort_Permutation.
  assert (len s = len xs) as Hls by apply sort_Sort_len.
  pose proof (len_pos xs Hne) as Hlen.
  assert (0 ≤ total_of xs) as Hpos.
  { destruct (lookup_lt_is_Some_2 s 0) as [a Ha].
    { unfold len in *. lia. }
    pose proof (total_of_lookup_le s 0 a Hs Ha). lia. }
  assert (∀ z, 0 ≤ z ≤ int_max → wrap_int z = z) as Hwrap.
  { intros z Hz. apply wrap_int_id. unfold is_int, int_min. lia. }
  exists median. rewrite Hls in Hcalc, Hmed. split.
  - rewrite Hcalc, sum_loop_spec, Hts. rewrite (Hwrap (total_of xs)) by lia.
    rewrite Hwrap; [done|]. quot_nia.
  - destruct (Z.odd (len xs)) eqn:Eodd; [done|].
    apply rem2_odd in Eodd; [|lia].
    destruct Hmed as (mid0 & mid1 & H0 & H1 & ->). exists mid0, mid1.
    split; [done|]. split; [done|].
    pose proof (total_of_lookup_le s _ _ Hs H0).
    pose proof (total_of_lookup_le s _ _ Hs H1).
    assert (mid1 + mid0 ≤ total_of s).
    { eapply total_of_lookup_pair_le; [done| |exact H1|exact H0].
      quot_lia. }
    unfold add. rewrite (Hwrap (mid0 + mid1)) by lia.
    apply Hwrap. quot_lia.
Qed.

End statistics.

(** C4.  Finalization.  For every non-empty sample vector,
    [calcMedianAndAverage] sorts the retained vector ascending and returns:
    as median, the middle element [samples[count/2]] when the count is odd,
    and [(samples[count/2] + samples[count/2 - 1]) / 2] when it is even; as
    average, the sum of all samples divided by the count.  Both divisions
    truncate toward zero.  The sums are those of [time.Duration], that is,
    of 64-bit integers; they are the exact sums whenever these fit. *)
Theorem calcMedianAndAverage_spec (d : DataStore) :
  allQueryTimes d ≠ [] →
  ∃ s median average,
    calcMedianAndAverage d = Ok (median, average, set_allQueryTimes d s)
    ∧ Sorted Z.le s ∧ s ≡ₚ allQueryTimes d
    ∧ (if Z.odd (len s) then s !! Z.to_nat (len s ÷ 2) = Some median
       else ∃ mid0 mid1,
           s !! Z.to_nat (len s ÷ 2) = Some mid0
           ∧ s !! Z.to_nat (len s ÷ 2 - 1) = Some mid1
           ∧ median = wrap_int (add mid0 mid1 ÷ 2)
           ∧ (is_int (mid0 + mid1) → median = ((mid0 + mid1) ÷ 2)%Z))
    ∧ average = wrap_int (wrap_int (total_of (allQueryTimes d)) ÷ len s)
    ∧ (is_int (total_of (allQueryTimes d)) →
       average = (total_of (allQueryTimes d) ÷ len s)%Z).
Proof.
  intros Hne.
  destruct (calcMedianAndAverage_nonempty d Hne) as (median & Hcalc & Hmed).
  set (s := sort_Sort (allQueryTimes d)) in *.
  assert (total_of s = total_of (allQueryTimes d)) as Hts
    by apply total_of_Permutation, sort_Sort_Permutation.
  assert (1 ≤ len s)%Z as Hlen.
  { unfold s. rewrite sort_Sort_len. by apply len_pos. }
  exists s, median, (wrap_int (sum_loop s ÷ len s)).
  rewrite sum_loop_spec, Hts in *.
  split_and!; [done | apply sort_Sort_Sorted | apply sort_Sort_Permutation | | done |].
  - destruct (Z.odd (len s)); [done|].
    destruct Hmed as (mid0 & mid1 & H0 & H1 & ->). exists mid0, mid1.
    split_and!; [done | done | done |].
    intros Hfit. unfold add. rewrite (wrap_int_id (mid0 + mid1)) by done.
    apply wrap_int_id. unfold is_int, int_min, int_max in *. quot_lia.
  - intros Hfit. rewrite (wrap_int_id (total_of _)) by done.
    apply wrap_int_id. unfold is_int, int_min, int_max in *. quot_nia.
Qed.

Lemma calcMedianAndAverage_spec_witness :
  allQueryTimes (collect (mkWorkSample <$> [1; 4; 2; 3]%Z)) ≠ [] ∧
  ∃ s median average,
    calcMedianAndAverage (collect (mkWorkSample <$> [1; 4; 2; 3]%Z))
      = Ok (median, average,
            set_allQueryTimes (collect (mkWorkSample <$> [1; 4; 2; 3]%Z)) s)
    ∧ Sorted Z.le s ∧ s ≡ₚ allQueryTimes (collect (mkWorkSample <$> [1; 4; 2; 3]%Z))
    ∧ (if Z.odd (len s) then s !! Z.to_nat (len s ÷ 2) = Some median
       else ∃ mid0 mid1,
           s !! Z.to_nat (len s ÷ 2) = Some mid0
           ∧ s !! Z.to_nat (len s ÷ 2 - 1) = Some mid1
           ∧ median = wrap_int (add mid0 mid1 ÷ 2)
           ∧ (is_int (mid0 + mid1) → median = ((mid0 + mid1) ÷ 2)%Z))
    ∧ average
      = wrap_int
          (wrap_int (total_of (allQueryTimes (collect (mkWorkSample <$> [1; 4; 2; 3]%Z))))
           ÷ len s)
    ∧ (is_int (total_of (allQueryTimes (collect (mkWorkSample <$> [1; 4; 2; 3]%Z)))) →
       average
       = (total_of (allQueryTimes (collect (mkWorkSample <$> [1; 4; 2; 3]%Z))) ÷ len s)%Z).
Proof.
  assert (allQueryTimes (collect (mkWorkSample <$> [1; 4; 2; 3]%Z)) ≠ []) as H1
    by (simpl; discriminate).
  split; [exact H1|].
  exact (calcMedianAndAverage_spec _ H1).
Defined.

(** The two scenarios of the specification: an odd count, and an even
    count whose median and average are truncated. *)
Example finalization_odd_count :
  Collector_Run (mkWorkSample <$> [5; 1; 3]%Z)
  = Ok (mkReport 9 3 1 5 3 3).
Proof. reflexivity. Qed.

Example finalization_even_count :
  Collector_Run (mkWorkSample <$> [1; 2; 3; 4]%Z)
  = Ok (mkReport 10 4 1 4 2 2).
Proof. reflexivity. Qed.

(** C7.  Order of the statistics.  For a non-empty run (non-negative
    latencies whose total fits a [time.Duration]) the collector produces a
    report, and in it [min <= median <= max] and [min <= average <= max]. *)
Theorem statistics_ordered (samples : list WorkSample) :
  samples ≠ [] →
  Forall (λ s, 0 ≤ OpTime s)%Z samples →
  (total_of (OpTime <$> samples) ≤ int_max)%Z →
  ∃ r, Collector_Run samples = Ok r
    ∧ is_least (report_min r) (OpTime <$> samples)
    ∧ is_greatest (report_max r) (OpTime <$> samples)
    ∧ (report_min r ≤ report_median r ≤ report_max r)%Z
    ∧ (report_min r ≤ report_average r ≤ report_max r)%Z.
Proof.
  intros Hne Hnn Htotal. set (d := collect samples).
  assert (allQueryTimes d = OpTime <$> samples) as Hall by apply collect_allQueryTimes.
  pose proof (collect_minQueryTime samples) as Hmin.
  pose proof (collect_maxQueryTime samples) as Hmax. fold d in Hmin, Hmax.
  destruct (minQueryTime d) as [mn|] eqn:Emin; [|done].
  destruct (maxQueryTime d) as [mx|] eqn:Emax; [|done].
  destruct Hmin as [_ Hmin]. destruct Hmax as [_ Hmax].
  assert (allQueryTimes d ≠ []) as Hne' by (rewrite Hall; by destruct samples).
  assert (Forall (λ x, 0 ≤ x)%Z (allQueryTimes d)) as Hnn'.
  { rewrite Hall. by apply Forall_fmap. }
  rewrite <-Hall in Htotal, Hmin, Hmax.
  destruct (calcMedianAndAverage_exact d Hne' Hnn' Htotal) as (median & Hcalc & Hmed).
  assert (Forall (λ x, mn ≤ x ≤ mx)%Z (allQueryTimes d)) as Hbounds.
  { apply Forall_forall. intros x Hx. split; [by apply Hmin | by apply Hmax]. }
  assert (∀ i x, sort_Sort (allQueryTimes d) !! i = Some x → (mn ≤ x ≤ mx)%Z) as Hsorted.
  { intros i x Hx. apply list_elem_of_lookup_2 in Hx.
    rewrite sort_Sort_Permutation in Hx. by apply (proj1 (Forall_forall _ _) Hbounds). }
  eexists. unfold Collector_Run, finalize. fold d. rewrite Hcalc. simpl.
  rewrite Emin, Emax. simpl. split; [done|]. simpl. rewrite <-Hall.
  split; [done|]. split; [done|]. split.
  - destruct (Z.odd (len (allQueryTimes d))).
    + by eapply Hsorted.
    + destruct Hmed as (mid0 & mid1 & H0 & H1 & ->).
      apply Hsorted in H0. apply Hsorted in H1. quot_lia.
  - pose proof (len_pos _ Hne'). apply quot_between; [lia | by apply total_of_bounds].
Qed.

Lemma statistics_ordered_witness :
  mkWorkSample <$> [10; 20; 30; 40]%Z ≠ [] ∧
  Forall (λ s, 0 ≤ OpTime s)%Z (mkWorkSample <$> [10; 20; 30; 40]%Z) ∧
  (total_of (OpTime <$> (mkWorkSample <$> [10; 20; 30; 40]%Z)) ≤ int_max)%Z ∧
  ∃ r, Collector_Run (mkWorkSample <$> [10; 20; 30; 40]%Z) = Ok r
    ∧ is_least (report_min r) (OpTime <$> (mkWorkSample <$> [10; 20; 30; 40]%Z))
    ∧ is_greatest (report_max r) (OpTime <$> (mkWorkSample <$> [10; 20; 30; 40]%Z))
    ∧ (report_min r ≤ report_median r ≤ report_max r)%Z
    ∧ (report_min r ≤ report_average r ≤ report_max r)%Z.
Proof.
  assert (mkWorkSample <$> [10; 20; 30; 40]%Z ≠ []) as H1 by (simpl; discriminate).
  assert (Forall (λ s, 0 ≤ OpTime s)%Z (mkWorkSample <$> [10; 20; 30; 40]%Z)) as H2
    by (simpl; repeat constructor; simpl; lia).
  assert (total_of (OpTime <$> (mkWorkSample <$> [10; 20; 30; 40]%Z)) ≤ int_max)%Z as H3
    by (unfold int_max; simpl; lia).
  split; [exact H1|]. split; [exact H2|]. split; [exact H3|].
  exact (statistics_ordered _ H1 H2 H3).
Defined.

(** C9.  The running total kept by [AddWorkSample] is the sum recomputed by
    the loop of [calcMedianAndAverage] over the (sorted) retained vector, so
    that the finalization is the one obtained by dividing the running total
    by the number of samples; for a non-empty run it returns, and the
    average is the reported total divided by the count. *)
Theorem running_total_is_batch_sum (samples : list WorkSample) :
  let d := collect samples in
  let s := sort_Sort (allQueryTimes d) in
  totalProcessingTime d = sum_loop s
  ∧ calcMedianAndAverage d
    = (median ← median_of s;
       average ← quo (totalProcessingTime d) (len s);
       Ok (median, average, set_allQueryTimes d s))
  ∧ (samples ≠ [] →
     ∃ median average,
       calcMedianAndAverage d = Ok (median, average, set_allQueryTimes d s)
       ∧ quo (totalProcessingTime d) (len (allQueryTimes d)) = Ok average).
Proof.
  intros d s.
  assert (totalProcessingTime d = sum_loop s) as Htotal.
  { unfold s, d. rewrite collect_totalProcessingTime, sum_loop_spec.
    f_equal. rewrite collect_allQueryTimes.
    symmetry. apply total_of_Permutation, sort_Sort_Permutation. }
  split; [done|]. split.
  - unfold calcMedianAndAverage. fold s. by rewrite Htotal.
  - intros Hne.
    assert (allQueryTimes d ≠ []) as Hne'.
    { unfold d. rewrite collect_allQueryTimes. by destruct samples. }
    destruct (calcMedianAndAverage_nonempty d Hne') as (median & Hcalc & _).
    fold s in Hcalc. eexists _, _. split; [exact Hcalc|].
    rewrite Htotal. replace (len s) with (len (allQueryTimes d)) by (symmetry; apply sort_Sort_len).
    unfold quo. pose proof (len_pos _ Hne'). by rewrite decide_False by lia.
Qed.

Lemma running_total_is_batch_sum_witness :
  let d := collect (mkWorkSample <$> [5; 1; 3]%Z) in
  let s := sort_Sort (allQueryTimes d) in
  mkWorkSample <$> [5; 1; 3]%Z ≠ []
  ∧ totalProcessingTime d = sum_loop s
  ∧ ∃ median average,
      calcMedianAndAverage d = Ok (median, average, set_allQueryTimes d s)
      ∧ quo (totalProcessingTime d) (len (allQueryTimes d)) = Ok average.
Proof.
  intros d s.
  assert (mkWorkSample <$> [5; 1; 3]%Z ≠ []) as Hne by (simpl; discriminate).
  split; [exact Hne|].
  destruct (running_total_is_batch_sum (mkWorkSample <$> [5; 1; 3]%Z)) as (Ht & _ & Hc).
  split; [exact Ht|]. exact (Hc Hne).
Defined.

(** C2.  The empty run.  The dispatch loop over an empty input spawns no
    worker, and the data store stays fresh (count zero, minimum and maximum
    unset); but the finalization then reads [allQueryTimes[0]] of an empty
    slice: [calcMedianAndAverage] panics with an index out of range, and so
    does [Collector.Run]. *)
Theorem empty_run_finalization_panics (n : Z) :
  Run n [] = Ok (NewController n)
  ∧ spawned (NewController n) = []
  ∧ numQueries (collect []) = 0%Z
  ∧ minQueryTime (collect []) = None
  ∧ maxQueryTime (collect []) = None
  ∧ calcMedianAndAverage (collect []) = Panic (IndexOutOfRange 0 0)
  ∧ Collector_Run [] = Panic (IndexOutOfRange 0 0).
Proof. by split_and!. Qed.

(** ** The pipeline under an arbitrary schedule *)

Section pipeline_facts.
Variable exec : QueryParam → Z.

Lemma pipeline_inv_start n data : pipeline_inv exec n data (start n data).
Proof.
  split_and!; simpl.
  - by exists [].
  - done.
  - done.
Qed.

Lemma pipeline_inv_step n data p p' :
  pipeline_inv exec n data p → step exec p p' → pipeline_inv exec n data p'.
Proof.
  intros ((pre & Hdata & Hrun) & Hperm & Hstore) Hstep.
  destruct Hstep as [c c' qp rest inb fl st ch Hd Hs
                    |c pend inb1 inb2 w qp fl st Hw Hfirst
                    |c pend inb s fl st]; simpl in Hdata, Hrun, Hperm, Hstore.
  - split_and!; simpl.
    + exists (pre ++ [qp]). split; [by rewrite <-app_assoc|].
      unfold Run in *. rewrite Run_loop_app, Hrun. simpl. by rewrite Hd.
    + rewrite <-Hperm, !fmap_app. simpl. by rewrite <-!app_assoc.
    + done.
  - split_and!; simpl.
    + by exists pre.
    + rewrite <-Hperm, !fmap_app. simpl.
      rewrite <-!app_assoc. do 2 f_equiv. simpl.
      by rewrite Permutation_middle.
    + done.
  - split_and!; simpl.
    + by exists pre.
    + rewrite <-Hperm. simpl. by rewrite <-!app_assoc.
    + rewrite fmap_app. simpl. rewrite collect_snoc, <-Hstore. by destruct s.
Qed.

Lemma pipeline_inv_rtc n data p :
  rtc (step exec) (start n data) p → pipeline_inv exec n data p.
Proof.
  revert p. apply rtc_ind_r.
  - apply pipeline_inv_start.
  - intros q p _ Hstep Hq. by eapply pipeline_inv_step.
Qed.

(** What a complete run leaves behind, whatever the schedule: the
    controller is the one of the sequential loop, and the data store has
    collected a rearrangement of the latencies of the input. *)
Lemma runs_to_outcome n data p :
  runs_to exec n data p →
  Run n data = Ok (controller p)
  ∧ allQueryTimes (store p) ≡ₚ exec <$> data
  ∧ store p = collect (mkWorkSample <$> allQueryTimes (store p)).
Proof.
  intros [Hrtc (Hpend & Hinb & Hfl)].
  destruct (pipeline_inv_rtc n data p Hrtc) as ((pre & Hdata & Hrun) & Hperm & Hstore).
  rewrite Hpend, Hinb, Hfl in *. simpl in Hperm. rewrite !app_nil_r in *.
  by subst pre.
Qed.

End pipeline_facts.

(** ** Aggregates do not depend on the order of arrival *)

Lemma OpTime_mkWorkSample (xs : list Z) : OpTime <$> (mkWorkSample <$> xs) = xs.
Proof. induction xs as [|x xs IH]; [done|]. by rewrite !fmap_cons, IH. Qed.

Lemma is_least_unique m1 m2 (xs ys : list Z) :
  xs ≡ₚ ys → is_least m1 xs → is_least m2 ys → m1 = m2.
Proof.
  intros Hp [Hin1 Hle1] [Hin2 Hle2].
  rewrite Hp in Hin1. rewrite <-Hp in Hin2.
  specialize (Hle1 _ Hin2). specialize (Hle2 _ Hin1). lia.
Qed.

Lemma is_greatest_unique m1 m2 (xs ys : list Z) :
  xs ≡ₚ ys → is_greatest m1 xs → is_greatest m2 ys → m1 = m2.
Proof.
  intros Hp [Hin1 Hle1] [Hin2 Hle2].
  rewrite Hp in Hin1. rewrite <-Hp in Hin2.
  specialize (Hle1 _ Hin2). specialize (Hle2 _ Hin1). lia.
Qed.

Lemma collect_Permutation (xs ys : list Z) :
  xs ≡ₚ ys →
  let d1 := collect (mkWorkSample <$> xs) in
  let d2 := collect (mkWorkSample <$> ys) in
  numQueries d1 = numQueries d2
  ∧ totalProcessingTime d1 = totalProcessingTime d2
  ∧ minQueryTime d1 = minQueryTime d2
  ∧ maxQueryTime d1 = maxQueryTime d2
  ∧ sort_Sort (allQueryTimes d1) = sort_Sort (allQueryTimes d2).
Proof.
  intros Hp d1 d2. unfold d1, d2.
  assert (xs = [] ↔ ys = []) as Hnil.
  { split; intros ->; [by apply Permutation_nil_l in Hp
                      | by apply Permutation_nil_r in Hp]. }
  split_and!.
  - rewrite !collect_numQueries. unfold len. by rewrite !length_fmap, Hp.
  - rewrite !collect_totalProcessingTime, !OpTime_mkWorkSample.
    f_equal. by apply total_of_Permutation.
  - pose proof (collect_minQueryTime (mkWorkSample <$> xs)) as H1.
    pose proof (collect_minQueryTime (mkWorkSample <$> ys)) as H2.
    rewrite OpTime_mkWorkSample in H1, H2.
    destruct (minQueryTime (collect (mkWorkSample <$> xs))) as [m1|],
             (minQueryTime (collect (mkWorkSample <$> ys))) as [m2|].
    + f_equal. destruct H1 as [_ H1], H2 as [_ H2]. by eapply is_least_unique.
    + destruct H1 as [H1 _]. apply fmap_nil_inv in H2. apply Hnil in H2. by subst xs.
    + destruct H2 as [H2 _]. apply fmap_nil_inv in H1. apply Hnil in H1. by subst ys.
    + done.
  - pose proof (collect_maxQueryTime (mkWorkSample <$> xs)) as H1.
    pose proof (collect_maxQueryTime (mkWorkSample <$> ys)) as H2.
    rewrite OpTime_mkWorkSample in H1, H2.
    destruct (maxQueryTime (collect (mkWorkSample <$> xs))) as [m1|],
             (maxQueryTime (collect (mkWorkSample <$> ys))) as [m2|].
    + f_equal. destruct H1 as [_ H1], H2 as [_ H2]. by eapply is_greatest_unique.
    + destruct H1 as [H1 _]. apply fmap_nil_inv in H2. apply Hnil in H2. by subst xs.
    + destruct H2 as [H2 _]. apply fmap_nil_inv in H1. apply Hnil in H1. by subst ys.
    + done.
  - rewrite !collect_allQueryTimes, !OpTime_mkWorkSample.
    apply sort_Sort_unique; [apply sort_Sort_Sorted|].
    by rewrite sort_Sort_Permutation.
Qed.

(** The report depends on the retained vector only through its sorted
    arrangement. *)
Lemma finalize_ext d1 d2 :
  numQueries d1 = numQueries d2 →
  totalProcessingTime d1 = totalProcessingTime d2 →
  minQueryTime d1 = minQueryTime d2 →
  maxQueryTime d1 = maxQueryTime d2 →
  sort_Sort (allQueryTimes d1) = sort_Sort (allQueryTimes d2) →
  finalize d1 = finalize d2.
Proof.
  intros Hn Ht Hmin Hmax Hs. unfold finalize, calcMedianAndAverage. rewrite Hs.
  destruct (median_of _) as [median|]; simpl; [|done].
  destruct (quo _ _) as [average|]; simpl; [|done].
  by rewrite Hn, Ht, Hmin, Hmax.
Qed.

(** ** Determinism of the pipeline *)

Section pipeline_runs.
Variable exec : QueryParam → Z.

(** The sequential schedule (dispatch a record, let its worker execute
    it, collect the sample) drains the pipeline: complete runs exist for
    every input. *)
Lemma pipeline_drains_from pend : ∀ c st,
  ctl_inv c →
  ∃ c' st', rtc (step exec) (mkPipeline c pend [] [] st) (mkPipeline c' [] [] [] st').
Proof.
  induction pend as [|qp rest IH]; intros c st Hinv.
  - by exists c, st.
  - destruct (dispatch_total c qp Hinv) as (c1 & Hd & Hinv1 & _ & _ & ch & Hs).
    destruct (inv_routes _ Hinv1 ch qp) as (wh & Hwh & Hch).
    { rewrite Hs. set_solver. }
    pose proof (inv_bound _ Hinv1 _ _ Hwh) as Hin.
    rewrite <-(inv_spawned _ Hinv1) in Hin.
    apply list_elem_of_fmap in Hin as (w & -> & Hw). simpl in Hch. subst ch.
    destruct (IH c1 (AddWorkSample st (Worker_sample exec qp)) Hinv1) as (c' & st' & Hrest).
    exists c', st'.
    eapply rtc_l; [by eapply step_dispatch|].
    eapply rtc_l.
    { apply (step_worker exec c1 rest [] [] w qp [] st Hw). intros qp' Hin.
      by apply elem_of_nil in Hin. }
    eapply rtc_l; [apply step_collect|]. exact Hrest.
Qed.

Lemma pipeline_drains n data : is_uint64 n → ∃ p, runs_to exec n data p.
Proof.
  intros Hn.
  destruct (pipeline_drains_from data (NewController n) NewDataStore
              (ctl_inv_NewController n Hn)) as (c' & st' & Hrun).
  by exists (mkPipeline c' [] [] [] st').
Qed.

End pipeline_runs.

(** C8.  Determinism.  Two complete runs of the pipeline over the same
    input, with the same cap and the same (deterministic) executor, end
    with the same routing table and the same aggregates (count, total,
    minimum, maximum, and the report with median and average), whatever
    the schedules of the controller, the workers and the collector. *)
Theorem pipeline_deterministic
    (exec : QueryParam → Z) (n : Z) (data : list QueryParam) (p1 p2 : Pipeline) :
  runs_to exec n data p1 → runs_to exec n data p2 →
  workerMap (controller p1) = workerMap (controller p2)
  ∧ numQueries (store p1) = numQueries (store p2)
  ∧ totalProcessingTime (store p1) = totalProcessingTime (store p2)
  ∧ minQueryTime (store p1) = minQueryTime (store p2)
  ∧ maxQueryTime (store p1) = maxQueryTime (store p2)
  ∧ finalize (store p1) = finalize (store p2).
Proof.
  intros H1 H2.
  destruct (runs_to_outcome exec n data p1 H1) as (Hc1 & Hp1 & Hs1).
  destruct (runs_to_outcome exec n data p2 H2) as (Hc2 & Hp2 & Hs2).
  assert (controller p1 = controller p2) as Hc by congruence.
  assert (allQueryTimes (store p1) ≡ₚ allQueryTimes (store p2)) as Hp
    by (by rewrite Hp1, Hp2).
  destruct (collect_Permutation _ _ Hp) as (Hn & Ht & Hmin & Hmax & Hsort).
  rewrite <-Hs1, <-Hs2 in Hn, Ht, Hmin, Hmax, Hsort.
  split_and!; [by rewrite Hc | done | done | done | done |].
  by apply finalize_ext.
Qed.

(** Two schedules of the same run: hosts [h1] and [h2], one worker each.
    In the first the samples arrive in input order, in the second the
    worker of [h2] overtakes the worker of [h1]. *)
Lemma scenario_run_in_order :
  ∃ p, runs_to scenario_exec 0 (query <$> ["h1"; "h2"]) p
     ∧ allQueryTimes (store p) = [30; 10]%Z.
Proof.
  eexists. split; [split|].
  - unfold start. simpl.
    eapply rtc_l.
    { eapply step_dispatch; [vm_compute; reflexivity | reflexivity]. }
    eapply rtc_l.
    { apply (step_worker scenario_exec _ _ [] [] (mkWorker 2 3 0) (query "h1") [] _).
      - apply list_elem_of_here.
      - intros qp' Hin. by apply elem_of_nil in Hin. }
    eapply rtc_l; [apply step_collect|].
    eapply rtc_l.
    { eapply step_dispatch; [vm_compute; reflexivity | reflexivity]. }
    eapply rtc_l.
    { apply (step_worker scenario_exec _ _ [] [] (mkWorker 4 5 0) (query "h2") [] _).
      - apply list_elem_of_further, list_elem_of_here.
      - intros qp' Hin. by apply elem_of_nil in Hin. }
    eapply rtc_l; [apply step_collect|].
    apply rtc_refl.
  - done.
  - reflexivity.
Qed.

Lemma scenario_run_overtaking :
  ∃ p, runs_to scenario_exec 0 (query <$> ["h1"; "h2"]) p
     ∧ allQueryTimes (store p) = [10; 30]%Z.
Proof.
  eexists. split; [split|].
  - unfold start. simpl.
    eapply rtc_l.
    { eapply step_dispatch; [vm_compute; reflexivity | reflexivity]. }
    eapply rtc_l.
    { eapply step_dispatch; [vm_compute; reflexivity | reflexivity]. }
    eapply rtc_l.
    { apply (step_worker scenario_exec _ _ [(2%nat, query "h1")] []
               (mkWorker 4 5 0) (query "h2") [] _).
      - apply list_elem_of_further, list_elem_of_here.
      - intros qp' Hin. apply list_elem_of_singleton in Hin. discriminate. }
    eapply rtc_l.
    { apply (step_worker scenario_exec _ _ [] [] (mkWorker 2 3 0) (query "h1") _ _).
      - apply list_elem_of_here.
      - intros qp' Hin. by apply elem_of_nil in Hin. }
    eapply rtc_l; [apply step_collect|].
    eapply rtc_l; [apply step_collect|].
    apply rtc_refl.
  - done.
  - reflexivity.
Qed.

Lemma pipeline_deterministic_witness :
  ∃ p1 p2,
    runs_to scenario_exec 0 (query <$> ["h1"; "h2"]) p1
    ∧ runs_to scenario_exec 0 (query <$> ["h1"; "h2"]) p2
    ∧ allQueryTimes (store p1) ≠ allQueryTimes (store p2)
    ∧ workerMap (controller p1) = workerMap (controller p2)
    ∧ numQueries (store p1) = numQueries (store p2)
    ∧ totalProcessingTime (store p1) = totalProcessingTime (store p2)
    ∧ minQueryTime (store p1) = minQueryTime (store p2)
    ∧ maxQueryTime (store p1) = maxQueryTime (store p2)
    ∧ finalize (store p1) = finalize (store p2).
Proof.
  destruct scenario_run_in_order as (p1 & Hrun1 & Hall1).
  destruct scenario_run_overtaking as (p2 & Hrun2 & Hall2).
  exists p1, p2. split; [exact Hrun1|]. split; [exact Hrun2|].
  split; [rewrite Hall1, Hall2; discriminate|].
  exact (pipeline_deterministic scenario_exec 0 (query <$> ["h1"; "h2"]) p1 p2 Hrun1 Hrun2).
Defined.

(** * Further properties of the controller *)

Lemma roster_inv_NewController n : roster_inv (NewController n).
Proof. by split. Qed.

Lemma roster_inv_dispatch c qp c' :
  roster_inv c → dispatch c qp = Ok c' → roster_inv c'.
Proof.
  intros [Hcc Hcci Hnext Hsp] Hd.
  destruct (dispatch_inv c qp c' Hd) as [w Hm ->|w c1 Hm Hcap Hrr ->|Hm Hcap ->].
  - by split.
  - assert (collectorChan c1 = collectorChan c
            ∧ collectorControlIn c1 = collectorControlIn c
            ∧ nextChan c1 = nextChan c ∧ spawned c1 = spawned c) as (E1 & E2 & E3 & E4).
    { unfold roundRobinSelect in Hrr.
      destruct (decide _); simpl in Hrr;
        destruct (index _ _); simpl in Hrr; [| done | | done];
        by injection Hrr as <- <-. }
    split; simpl; rewrite ?E1, ?E2, ?E3, ?E4; done.
  - split; simpl; [done | done | |].
    + rewrite length_app, Hnext. simpl. lia.
    + rewrite length_app. simpl. rewrite Nat.add_1_r, seq_S, fmap_app, <-Hsp. simpl.
      rewrite Hnext, Hcc. unfold nth_worker. do 2 f_equal.
Qed.

Lemma count_inv_NewController n : count_inv (NewController n).
Proof. by split. Qed.

Lemma count_inv_dispatch c qp c' :
  count_inv c → dispatch c qp = Ok c' → count_inv c'.
Proof.
  intros [Hle Heq] Hd.
  destruct (dispatch_inv c qp c' Hd) as [w Hm ->|w c1 Hm Hcap Hrr ->|Hm Hcap ->].
  - by split.
  - assert (workers c1 = workers c ∧ workerMap c1 = workerMap c
            ∧ numWorkers c1 = numWorkers c) as (E1 & E2 & E3).
    { unfold roundRobinSelect in Hrr.
      destruct (decide _); simpl in Hrr;
        destruct (index _ _); simpl in Hrr; [| done | | done];
        by injection Hrr as <- <-. }
    split; simpl.
    + rewrite E1, E2, map_size_insert_None by done. lia.
    + unfold cap_reached in *. simpl. rewrite E1, E3, Hcap. done.
  - specialize (Heq Hcap). split; simpl.
    + rewrite length_app, map_size_insert_None by done. simpl. lia.
    + intros _. rewrite length_app, map_size_insert_None by done. simpl. lia.
Qed.

Lemma Run_loop_preserves (P : Controller → Prop) :
  (∀ c qp c', P c → dispatch c qp = Ok c' → P c') →
  ∀ data c c', P c → Run_loop c data = Ok c' → P c'.
Proof.
  intros Hstep data. induction data as [|qp rest IH]; intros c c' Hc; simpl.
  - by intros [= <-].
  - destruct (dispatch c qp) as [c1|] eqn:Hd; simpl; [|done].
    intros Hrun. eapply IH; [|exact Hrun]. by eapply Hstep.
Qed.

Lemma Run_roster_inv n data fin : Run n data = Ok fin → roster_inv fin.
Proof.
  apply (Run_loop_preserves roster_inv roster_inv_dispatch).
  apply roster_inv_NewController.
Qed.

Lemma Run_count_inv n data fin : Run n data = Ok fin → count_inv fin.
Proof.
  apply (Run_loop_preserves count_inv count_inv_dispatch).
  apply count_inv_NewController.
Qed.

Lemma ctl_inv_dispatch c qp c' : ctl_inv c → dispatch c qp = Ok c' → ctl_inv c'.
Proof.
  intros Hinv Hd. destruct (dispatch_total c qp Hinv) as (c1 & Hd1 & Hinv1 & _).
  congruence.
Qed.

(** The roster is the list of the handles of the workers spawned so far. *)
Lemma workers_lookup c i w :
  ctl_inv c → roster_inv c →
  workers c !! i = Some w ↔ (i < length (workers c))%nat ∧ w = handle_of (nth_worker i).
Proof.
  intros Hinv Hr. rewrite <-(inv_spawned _ Hinv), (roster_spawned _ Hr).
  rewrite !length_fmap, length_seq, !list_lookup_fmap. split.
  - intros Hi. destruct (seq 0 (length (spawned c)) !! i) as [j|] eqn:Hj; [|done].
    apply lookup_seq in Hj as [-> ?]. simpl in Hi. injection Hi as <-. done.
  - intros [Hi ->]. by rewrite (lookup_seq_lt _ _ _ Hi).
Qed.

Lemma workers_lookup_inj c i j w :
  ctl_inv c → roster_inv c →
  workers c !! i = Some w → workers c !! j = Some w → i = j.
Proof.
  intros Hinv Hr Hi Hj.
  apply (workers_lookup c i w Hinv Hr) in Hi as [_ ->].
  apply (workers_lookup c j _ Hinv Hr) in Hj as [_ Hj].
  unfold handle_of, nth_worker in Hj. simpl in Hj. injection Hj as Hj _. lia.
Qed.

(** The handle built by the spawn branch is not in the roster yet. *)
Lemma spawn_handle_fresh c :
  ctl_inv c → roster_inv c →
  mkWorkerHandle (nextChan c) (S (nextChan c)) ∉ workers c.
Proof.
  intros Hinv Hr Hin. apply list_elem_of_lookup in Hin as [i Hi].
  apply (workers_lookup c i _ Hinv Hr) in Hi as [Hlt Heq].
  rewrite (roster_nextChan _ Hr) in Heq.
  rewrite <-(inv_spawned _ Hinv), length_fmap in Hlt.
  unfold handle_of, nth_worker in Heq. simpl in Heq. injection Heq as Heq _. lia.
Qed.

Lemma owner_inv_NewController n : owner_inv (NewController n).
Proof. intros h1 h2 w i Hi. done. Qed.

Lemma owner_inv_dispatch c qp c' :
  ctl_inv c → roster_inv c → owner_inv c → dispatch c qp = Ok c' → owner_inv c'.
Proof.
  intros Hinv Hr Ho Hd.
  destruct (dispatch_inv c qp c' Hd) as [w0 Hm ->|w0 c1 Hm Hcap Hrr ->|Hm Hcap ->].
  - exact Ho.
  - destruct (cap_reached_true c (inv_uint64 _ Hinv) Hcap) as [Hn Hlen].
    pose proof (inv_cursor_nonneg _ Hinv) as Hnn.
    pose proof (inv_cursor _ Hinv) as Hcur.
    destruct (roundRobinSelect_in_range c ltac:(lia) ltac:(lia)) as (w' & Hrr' & Hw').
    rewrite Hrr in Hrr'. injection Hrr' as -> ->.
    intros h1 h2 w i. simpl. intros Hi.
    rewrite !lookup_insert.
    destruct (decide (Host qp = h1)) as [<-|Hne1], (decide (Host qp = h2)) as [<-|Hne2].
    + by left.
    + intros [= <-] _. right. split; [lia|].
      pose proof (workers_lookup_inj c _ _ _ Hinv Hr Hi Hw') as ->.
      case_decide; lia.
    + intros _ [= <-]. right. split; [lia|].
      pose proof (workers_lookup_inj c _ _ _ Hinv Hr Hi Hw') as ->.
      case_decide; lia.
    + by apply Ho.
  - pose proof (spawn_handle_fresh c Hinv Hr) as Hfresh.
    intros h1 h2 w i. simpl. intros Hi.
    rewrite !lookup_insert.
    destruct (decide (Host qp = h1)) as [<-|Hne1], (decide (Host qp = h2)) as [<-|Hne2].
    + by left.
    + intros [= <-] Hw. destruct Hfresh. by apply (inv_bound _ Hinv h2).
    + intros Hw [= <-]. destruct Hfresh. by apply (inv_bound _ Hinv h1).
    + intros Hw1 Hw2. apply (Ho h1 h2 w i); [|done|done].
      apply lookup_app_Some in Hi as [Hi|[_ Hi]]; [done|].
      apply list_lookup_singleton_Some in Hi as [_ <-].
      destruct Hfresh. by apply (inv_bound _ Hinv h1).
Qed.

(** The invariants of the controller hold in every state of a run. *)
Lemma Run_invariants n data fin :
  is_uint64 n → Run n data = Ok fin →
  ctl_inv fin ∧ roster_inv fin ∧ count_inv fin ∧ owner_inv fin ∧ numWorkers fin = n.
Proof.
  intros Hn Hrun.
  destruct (Run_total n data Hn) as (fin' & Hrun' & Hinv & Hnum & _).
  assert (fin' = fin) as -> by congruence.
  split; [done|]. split; [by eapply Run_roster_inv|].
  split; [by eapply Run_count_inv|]. split; [|done].
  assert (ctl_inv fin ∧ roster_inv fin ∧ owner_inv fin) as (_ & _ & Ho); [|done].
  revert Hrun.
  apply (Run_loop_preserves (λ c, ctl_inv c ∧ roster_inv c ∧ owner_inv c)).
  - intros c qp c' (Hc & Hr & Ho) Hd. split_and!.
    + by eapply ctl_inv_dispatch.
    + by eapply roster_inv_dispatch.
    + by eapply owner_inv_dispatch.
  - split_and!; [by apply ctl_inv_NewController | apply roster_inv_NewController
                | apply owner_inv_NewController].
Qed.

(** X1.  Every host of the input, and no other, is bound in the routing
    table at the end of the loop, and it is bound to the handle of a worker
    that was spawned. *)
Theorem routing_table_covers_input (n : Z) (data : list QueryParam) :
  is_uint64 n →
  ∃ fin, Run n data = Ok fin
    ∧ (∀ h, is_Some (workerMap fin !! h) ↔ h ∈ Host <$> data)
    ∧ (∀ h w, workerMap fin !! h = Some w →
         ∃ wk, wk ∈ spawned fin ∧ handle_of wk = w
               ∧ collectorOut wk = collectorChan fin).
Proof.
  intros Hn. destruct (Run_total n data Hn) as (fin & Hrun & Hinv & _ & Hsent).
  destruct (Run_invariants n data fin Hn Hrun) as (_ & Hr & _).
  exists fin. split; [done|]. split.
  - intros h. rewrite <-elem_of_dom, (inv_dom _ Hinv), Hsent. apply elem_of_list_to_set.
  - intros h w Hw. pose proof (inv_bound _ Hinv h w Hw) as Hin.
    rewrite <-(inv_spawned _ Hinv) in Hin.
    apply list_elem_of_fmap in Hin as (wk & -> & Hwk). exists wk.
    split; [done|]. split; [done|].
    rewrite (roster_spawned _ Hr) in Hwk.
    apply list_elem_of_fmap in Hwk as (i & -> & _).
    by rewrite (roster_collectorChan _ Hr).
Qed.

Lemma routing_table_covers_input_witness :
  is_uint64 2 ∧
  ∃ fin, Run 2 (query <$> ["h1"; "h2"; "h3"; "h1"]) = Ok fin
    ∧ (∀ h, is_Some (workerMap fin !! h) ↔ h ∈ Host <$> (query <$> ["h1"; "h2"; "h3"; "h1"]))
    ∧ (∀ h w, workerMap fin !! h = Some w →
         ∃ wk, wk ∈ spawned fin ∧ handle_of wk = w
               ∧ collectorOut wk = collectorChan fin).
Proof.
  split; [unfold is_uint64, uint64_max; lia|].
  apply (routing_table_covers_input 2 (query <$> ["h1"; "h2"; "h3"; "h1"])).
  unfold is_uint64, uint64_max; lia.
Defined.

(** X2.  With a positive cap the number of workers spawned is exactly the
    smaller of the cap and the number of distinct hosts of the input. *)
Theorem spawned_count (n : Z) (data : list QueryParam) :
  is_uint64 n → (0 < n)%Z → (len data ≤ int_max)%Z →
  ∃ fin, Run n data = Ok fin
    ∧ length (spawned fin) = Nat.min (Z.to_nat n) (distinct_hosts data).
Proof.
  intros Hn Hpos Hdata.
  destruct (Run_total n data Hn) as (fin & Hrun & Hinv & Hnum & Hsent).
  destruct (Run_invariants n data fin Hn Hrun) as (_ & _ & Hcount & _).
  exists fin. split; [done|].
  assert (length (spawned fin) = length (workers fin)) as ->.
  { by rewrite <-(inv_spawned _ Hinv), length_fmap. }
  assert (size (workerMap fin) = distinct_hosts data) as Hsize.
  { unfold distinct_hosts. by rewrite <-size_dom, (inv_dom _ Hinv), Hsent. }
  pose proof (count_le _ Hcount) as Hle. rewrite Hsize in Hle.
  destruct (cap_reached fin) eqn:Hcap.
  - apply cap_reached_true in Hcap as [Hrange Hlen]; [|by apply (inv_uint64 _ Hinv)].
    rewrite Hnum in Hrange, Hlen. unfold len in Hlen. lia.
  - pose proof (count_eq _ Hcount Hcap) as Heq. rewrite Hsize in Heq.
    apply cap_reached_false in Hcap as [Hz|[Hbig|Hne]]; [| | |by apply (inv_uint64 _ Hinv)].
    + lia.
    + pose proof (inv_roster_sent _ Hinv) as Hrs.
      unfold len in Hdata. rewrite <-Hsent, length_fmap in Hdata. rewrite Hnum in Hbig. lia.
    + destruct (decide (n ≤ int_max)%Z) as [Hsmall|Hbig].
      * pose proof (inv_cap _ Hinv) as Hc. rewrite Hnum in Hc. unfold len in Hc. lia.
      * pose proof (inv_roster_sent _ Hinv) as Hrs.
        unfold len in Hdata. rewrite <-Hsent, length_fmap in Hdata. lia.
Qed.

Lemma spawned_count_witness :
  is_uint64 2 ∧ (0 < 2)%Z ∧ (len (query <$> ["h1"; "h2"; "h3"; "h1"]) ≤ int_max)%Z ∧
  ∃ fin, Run 2 (query <$> ["h1"; "h2"; "h3"; "h1"]) = Ok fin
    ∧ length (spawned fin)
      = Nat.min (Z.to_nat 2) (distinct_hosts (query <$> ["h1"; "h2"; "h3"; "h1"])).
Proof.
  split; [unfold is_uint64, uint64_max; lia|]. split; [lia|].
  split; [unfold len, int_max; simpl; lia|].
  apply (spawned_count 2 (query <$> ["h1"; "h2"; "h3"; "h1"])).
  - unfold is_uint64, uint64_max; lia.
  - lia.
  - unfold len, int_max; simpl; lia.
Defined.

(** X3.  Without a cap no two hosts share a worker. *)
Theorem unbounded_one_worker_per_host (data : list QueryParam) :
  ∃ fin, Run 0 data = Ok fin
    ∧ ∀ h1 h2 w,
        workerMap fin !! h1 = Some w → workerMap fin !! h2 = Some w → h1 = h2.
Proof.
  assert (is_uint64 0) as Hn by (unfold is_uint64, uint64_max; lia).
  destruct (Run_total 0 data Hn) as (fin & Hrun & Hinv & Hnum & _).
  destruct (Run_invariants 0 data fin Hn Hrun) as (_ & _ & _ & Ho & _).
  exists fin. split; [done|]. intros h1 h2 w H1 H2.
  pose proof (inv_bound _ Hinv _ _ H1) as Hin.
  apply list_elem_of_lookup in Hin as [i Hi].
  destruct (Ho h1 h2 w i Hi H1 H2) as [?|[_ Hcap]]; [done|].
  rewrite Hnum in Hcap. lia.
Qed.





(** ** Shutdown *)



(** Closing a list of channels panics as soon as one of them is closed
    already: a channel listed twice is enough. *)
Lemma close_each_twice closed chs1 ch chs2 chs3 :
  close_each closed (chs1 ++ ch :: chs2 ++ ch :: chs3) = None.
Proof.
  revert closed. induction chs1 as [|x chs1 IH]; intros closed; simpl.
  - unfold close_chan at 1. destruct (decide (ch ∈ closed)); [done|]. simpl.
    assert (∀ cl, ch ∈ cl → close_each cl (chs2 ++ ch :: chs3) = None) as Hlater.
    { clear. induction chs2 as [|y chs2 IH]; intros cl Hin; simpl.
      - unfold close_chan. by rewrite decide_True.
      - unfold close_chan at 1. destruct (decide (y ∈ cl)); [done|]. simpl.
        apply IH. set_solver. }
    apply Hlater. set_solver.
  - unfold close_chan at 1. destruct (decide (x ∈ closed)); [done|]. simpl. apply IH.
Qed.




(** * Further properties of the collector *)

Lemma mkWorkSample_OpTime (l : list WorkSample) : mkWorkSample <$> (OpTime <$> l) = l.
Proof.
  induction l as [|[x] l IH]; [done|]. rewrite !fmap_cons, IH. done.
Qed.

(** X7.  The report does not depend on the order in which the samples
    arrive: two arrival orders of the same samples give the same result of
    [Collector.Run] (the same report, or the same panic). *)
Theorem Collector_Run_Permutation (samples1 samples2 : list WorkSample) :
  samples1 ≡ₚ samples2 → Collector_Run samples1 = Collector_Run samples2.
Proof.
  intros Hp. unfold Collector_Run.
  assert (OpTime <$> samples1 ≡ₚ OpTime <$> samples2) as Hp' by (by rewrite Hp).
  destruct (collect_Permutation _ _ Hp') as (Hn & Ht & Hmin & Hmax & Hsort).
  rewrite !mkWorkSample_OpTime in Hn, Ht, Hmin, Hmax, Hsort.
  by apply finalize_ext.
Qed.

Lemma Collector_Run_Permutation_witness :
  mkWorkSample <$> [5; 1; 3]%Z ≡ₚ mkWorkSample <$> [3; 5; 1]%Z ∧
  Collector_Run (mkWorkSample <$> [5; 1; 3]%Z) = Collector_Run (mkWorkSample <$> [3; 5; 1]%Z).
Proof.
  assert (mkWorkSample <$> [5; 1; 3]%Z ≡ₚ mkWorkSample <$> [3; 5; 1]%Z) as Hp.
  { simpl. etrans; [apply perm_skip, perm_swap|]. apply perm_swap. }
  split; [exact Hp|]. exact (Collector_Run_Permutation _ _ Hp).
Defined.

(** X8.  [Collector.Run] panics on the empty run only, and then with the
    index out of range; on a non-empty run it never divides by zero, never
    dereferences a [nil] minimum or maximum and never reads outside the
    slice: it produces a report. *)
Theorem Collector_Run_panics_only_when_empty (samples : list WorkSample) :
  (samples ≠ [] → ∃ r, Collector_Run samples = Ok r)
  ∧ (∀ p, Collector_Run samples = Panic p → samples = [] ∧ p = IndexOutOfRange 0 0).
Proof.
  assert (samples ≠ [] → ∃ r, Collector_Run samples = Ok r) as Hok.
  { intros Hne. set (d := collect samples).
    assert (allQueryTimes d ≠ []) as Hne'.
    { unfold d. rewrite collect_allQueryTimes. by destruct samples. }
    destruct (calcMedianAndAverage_nonempty d Hne') as (median & Hcalc & _).
    pose proof (collect_minQueryTime samples) as Hmin.
    pose proof (collect_maxQueryTime samples) as Hmax. fold d in Hmin, Hmax.
    destruct (minQueryTime d) as [mn|] eqn:Emin; [|done].
    destruct (maxQueryTime d) as [mx|] eqn:Emax; [|done].
    eexists. unfold Collector_Run, finalize. fold d. rewrite Hcalc. simpl.
    rewrite Emin, Emax. simpl. done. }
  split; [done|]. intros p Hp.
  destruct samples as [|s samples].
  - split; [done|]. by injection Hp as <-.
  - destruct Hok as [r Hr]; [done|]. congruence.
Qed.

(** X9.  Finalization leaves the retained vector sorted ascending, and is
    idempotent: finalizing the data store it returns gives the same median,
    the same average and the same data store. *)
Theorem calcMedianAndAverage_idempotent (d d' : DataStore) (median average : Z) :
  calcMedianAndAverage d = Ok (median, average, d') →
  Sorted Z.le (allQueryTimes d')
  ∧ allQueryTimes d' ≡ₚ allQueryTimes d
  ∧ calcMedianAndAverage d' = Ok (median, average, d').
Proof.
  unfold calcMedianAndAverage.
  set (s := sort_Sort (allQueryTimes d)).
  destruct (median_of s) as [m|] eqn:Hm; simpl; [|done].
  destruct (quo (sum_loop s) (len s)) as [a|] eqn:Ha; simpl; [|done].
  intros [= <- <- <-]. simpl.
  assert (sort_Sort s = s) as Hs.
  { symmetry. apply sort_Sort_unique; [apply sort_Sort_Sorted | done]. }
  split; [apply sort_Sort_Sorted|]. split; [apply sort_Sort_Permutation|].
  rewrite Hs, Hm. simpl. rewrite Ha. done.
Qed.

Lemma calcMedianAndAverage_idempotent_witness :
  ∃ d',
    calcMedianAndAverage (collect (mkWorkSample <$> [5; 1; 3]%Z)) = Ok (3, 3, d')%Z
    ∧ Sorted Z.le (allQueryTimes d')
    ∧ allQueryTimes d' ≡ₚ allQueryTimes (collect (mkWorkSample <$> [5; 1; 3]%Z))
    ∧ calcMedianAndAverage d' = Ok (3, 3, d')%Z.
Proof.
  eexists.
  assert (calcMedianAndAverage (collect (mkWorkSample <$> [5; 1; 3]%Z))
          = Ok (3, 3, set_allQueryTimes (collect (mkWorkSample <$> [5; 1; 3]%Z)) [1; 3; 5])%Z)
    as H by reflexivity.
  split; [exact H|].
  exact (calcMedianAndAverage_idempotent _ _ _ _ H).
Defined.

(** X10.  Constant latency.  When every query of a non-empty run takes the
    same time [x] (non-negative, the total fitting a [time.Duration]), the
    minimum, the maximum, the median and the average of the report are all
    [x], the total is [count * x] and the count is the number of samples. *)
Theorem constant_latency_report (samples : list WorkSample) (x : Z) :
  samples ≠ [] →
  Forall (λ s, OpTime s = x) samples →
  (0 ≤ x)%Z → (len samples * x ≤ int_max)%Z → (len samples ≤ uint64_max)%Z →
  Collector_Run samples = Ok (mkReport (len samples * x) (len samples) x x x x).
Proof.
  intros Hne Hall Hx Htot Hcount. set (d := collect samples).
  assert (allQueryTimes d = OpTime <$> samples) as Hd by apply collect_allQueryTimes.
  assert (∀ y, y ∈ allQueryTimes d → y = x) as Hconst.
  { intros y. rewrite Hd. intros (s & -> & Hs)%list_elem_of_fmap.
    by apply (proj1 (Forall_forall _ _) Hall). }
  assert (len (allQueryTimes d) = len samples) as Hlen.
  { rewrite Hd. unfold len. by rewrite length_fmap. }
  assert (total_of (allQueryTimes d) = len samples * x)%Z as Htotal.
  { rewrite <-Hlen.
    pose proof (total_of_bounds (allQueryTimes d) x x) as Hb.
    destruct Hb; [|lia]. apply Forall_forall. intros y Hy. apply Hconst in Hy. lia. }
  assert (allQueryTimes d ≠ []) as Hne' by (rewrite Hd; by destruct samples).
  assert (1 ≤ len samples)%Z as Hpos by (by apply len_pos).
  destruct (calcMedianAndAverage_exact d Hne') as (median & Hcalc & Hmed).
  { apply Forall_forall. intros y Hy. apply Hconst in Hy. lia. }
  { lia. }
  assert (∀ i y, sort_Sort (allQueryTimes d) !! i = Some y → y = x) as Hsorted.
  { intros i y Hy. apply list_elem_of_lookup_2 in Hy.
    rewrite sort_Sort_Permutation in Hy. by apply Hconst. }
  assert (median = x) as ->.
  { destruct (Z.odd (len (allQueryTimes d))).
    - by eapply Hsorted.
    - destruct Hmed as (mid0 & mid1 & H0 & H1 & ->).
      apply Hsorted in H0 as ->. apply Hsorted in H1 as ->. quot_lia. }
  pose proof (collect_minQueryTime samples) as Hmin.
  pose proof (collect_maxQueryTime samples) as Hmax. fold d in Hmin, Hmax.
  destruct (minQueryTime d) as [mn|] eqn:Emin; [|done].
  destruct (maxQueryTime d) as [mx|] eqn:Emax; [|done].
  destruct Hmin as [_ [Hmn _]]. destruct Hmax as [_ [Hmx _]].
  rewrite <-Hd in Hmn, Hmx. apply Hconst in Hmn as ->. apply Hconst in Hmx as ->.
  unfold Collector_Run, finalize. fold d. rewrite Hcalc. simpl.
  rewrite Emin, Emax. simpl. f_equal.
  assert (totalProcessingTime d = len samples * x)%Z as ->.
  { unfold d. rewrite collect_totalProcessingTime, <-collect_allQueryTimes. fold d.
    rewrite Htotal. apply wrap_int_id. unfold is_int, int_min. lia. }
  assert (numQueries d = len samples) as ->.
  { unfold d. rewrite collect_numQueries. apply wrap_uint64_id.
    unfold is_uint64. lia. }
  rewrite Htotal, Hlen. f_equal.
  rewrite Z.mul_comm, Z.quot_mul; lia.
Qed.

Lemma constant_latency_report_witness :
  mkWorkSample <$> [2000000; 2000000; 2000000]%Z ≠ [] ∧
  Forall (λ s, OpTime s = 2000000%Z) (mkWorkSample <$> [2000000; 2000000; 2000000]%Z) ∧
  (0 ≤ 2000000)%Z ∧
  (len (mkWorkSample <$> [2000000; 2000000; 2000000]%Z) * 2000000 ≤ int_max)%Z ∧
  (len (mkWorkSample <$> [2000000; 2000000; 2000000]%Z) ≤ uint64_max)%Z ∧
  Collector_Run (mkWorkSample <$> [2000000; 2000000; 2000000]%Z)
  = Ok (mkReport (len (mkWorkSample <$> [2000000; 2000000; 2000000]%Z) * 2000000)
          (len (mkWorkSample <$> [2000000; 2000000; 2000000]%Z))
          2000000 2000000 2000000 2000000).
Proof.
  assert (mkWorkSample <$> [2000000; 2000000; 2000000]%Z ≠ []) as H1
    by (simpl; discriminate).
  assert (Forall (λ s, OpTime s = 2000000%Z)
            (mkWorkSample <$> [2000000; 2000000; 2000000]%Z)) as H2
    by (simpl; repeat constructor).
  assert (0 ≤ 2000000)%Z as H3 by lia.
  assert (len (mkWorkSample <$> [2000000; 2000000; 2000000]%Z) * 2000000 ≤ int_max)%Z
    as H4 by (unfold len, int_max; simpl; lia).
  assert (len (mkWorkSample <$> [2000000; 2000000; 2000000]%Z) ≤ uint64_max)%Z
    as H5 by (unfold len, uint64_max; simpl; lia).
  split; [exact H1|]. split; [exact H2|]. split; [exact H3|].
  split; [exact H4|]. split; [exact H5|].
  exact (constant_latency_report _ _ H1 H2 H3 H4 H5).
Defined.

(** * The sort interface *)

Lemma insert_Permutation_head (s : list Z) j b x :
  s !! j = Some b → b :: <[j := x]> s ≡ₚ x :: s.
Proof.
  revert j. induction s as [|y s IH]; intros j Hj; [done|].
  destruct j as [|j]; simpl in *.
  - injection Hj as ->. apply perm_swap.
  - rewrite perm_swap, (IH j Hj). apply perm_swap.
Qed.

Lemma swap_Permutation (s : list Z) i j a b :
  s !! i = Some a → s !! j = Some b → <[j := a]> (<[i := b]> s) ≡ₚ s.
Proof.
  revert i j. induction s as [|x s IH]; intros i j Hi Hj; [done|].
  destruct i as [|i], j as [|j]; simpl in *.
  - by injection Hi as ->; injection Hj as ->.
  - injection Hi as ->. by apply insert_Permutation_head.
  - injection Hj as ->. by apply insert_Permutation_head.
  - apply perm_skip. by apply IH.
Qed.

(** X11.  [Swap] with both indices inside the slice exchanges the two
    elements, leaves every other element in place and returns a
    rearrangement of the slice of the same length; with an index outside
    the slice it panics. *)
Theorem Swap_spec (s : list Z) (i j : Z) :
  ((0 ≤ i < len s)%Z ∧ (0 ≤ j < len s)%Z →
   ∃ s', DurationSlice.Swap s i j = Ok s'
     ∧ s' ≡ₚ s ∧ len s' = len s
     ∧ s' !! Z.to_nat i = s !! Z.to_nat j
     ∧ s' !! Z.to_nat j = s !! Z.to_nat i
     ∧ ∀ k, k ≠ Z.to_nat i → k ≠ Z.to_nat j → s' !! k = s !! k)
  ∧ (¬ ((0 ≤ i < len s)%Z ∧ (0 ≤ j < len s)%Z) →
     ∃ p, DurationSlice.Swap s i j = Panic p).
Proof.
  unfold DurationSlice.Swap. split.
  - intros [Hi Hj].
    destruct (index_in_range s j Hj) as [sj Hsj].
    destruct (index_in_range s i Hi) as [si Hsi].
    rewrite Hsj, Hsi. simpl. eexists. split; [done|].
    apply index_Ok in Hsj as [_ Hsj]. apply index_Ok in Hsi as [_ Hsi].
    assert (Z.to_nat i < length s)%nat as Hi' by (unfold len in Hi; lia).
    assert (Z.to_nat j < length s)%nat as Hj' by (unfold len in Hj; lia).
    split_and!.
    + by apply swap_Permutation.
    + unfold len. by rewrite !length_insert.
    + destruct (decide (Z.to_nat j = Z.to_nat i)) as [Heq|Hne].
      * rewrite Heq, list_lookup_insert_eq by (by rewrite length_insert). congruence.
      * rewrite list_lookup_insert_ne, list_lookup_insert_eq by done. done.
    + rewrite list_lookup_insert_eq by (by rewrite length_insert). done.
    + intros k Hki Hkj. by rewrite !list_lookup_insert_ne.
  - intros Hout. destruct (decide (0 ≤ j < len s)%Z) as [Hj|Hj].
    + destruct (index_in_range s j Hj) as [sj ->]. simpl.
      rewrite index_out_of_range by tauto. simpl. by eexists.
    + rewrite (index_out_of_range s j Hj). simpl. by eexists.
Qed.

(** X12.  Swapping the same two positions twice restores the slice. *)
Theorem Swap_involutive (s s' : list Z) (i j : Z) :
  DurationSlice.Swap s i j = Ok s' → DurationSlice.Swap s' i j = Ok s.
Proof.
  unfold DurationSlice.Swap.
  destruct (index s j) as [sj|] eqn:Hsj; simpl; [|done].
  destruct (index s i) as [si|] eqn:Hsi; simpl; [|done].
  intros [= <-].
  apply index_Ok in Hsj as [Hj Hsj]. apply index_Ok in Hsi as [Hi Hsi].
  assert (Z.to_nat i < length s)%nat as Hi' by (unfold len in Hi; lia).
  assert (Z.to_nat j < length s)%nat as Hj' by (unfold len in Hj; lia).
  set (s1 := <[Z.to_nat j:=si]> (<[Z.to_nat i:=sj]> s)).
  assert (length s1 = length s) as Hlen by (unfold s1; by rewrite !length_insert).
  assert (s1 !! Z.to_nat j = Some si) as H1j.
  { unfold s1. by rewrite list_lookup_insert_eq by (by rewrite length_insert). }
  assert (s1 !! Z.to_nat i = Some sj) as H1i.
  { unfold s1. destruct (decide (Z.to_nat j = Z.to_nat i)) as [Heq|Hne].
    - rewrite Heq, list_lookup_insert_eq by (by rewrite length_insert). congruence.
    - by rewrite list_lookup_insert_ne, list_lookup_insert_eq by done. }
  assert (index s1 j = Ok si) as ->.
  { apply index_Ok. split; [unfold len in *; lia | done]. }
  assert (index s1 i = Ok sj) as ->.
  { apply index_Ok. split; [unfold len in *; lia | done]. }
  simpl. f_equal. apply list_eq. intros k.
  destruct (decide (k = Z.to_nat j)) as [->|Hkj].
  - rewrite list_lookup_insert_eq by (by rewrite length_insert, Hlen). done.
  - rewrite list_lookup_insert_ne by done.
    destruct (decide (k = Z.to_nat i)) as [->|Hki].
    + rewrite list_lookup_insert_eq by (by rewrite Hlen). done.
    + rewrite list_lookup_insert_ne by done. unfold s1.
      by rewrite !list_lookup_insert_ne.
Qed.

Lemma Swap_involutive_witness :
  DurationSlice.Swap [5; 1; 3]%Z 0 2 = Ok [3; 1; 5]%Z
  ∧ DurationSlice.Swap [3; 1; 5]%Z 0 2 = Ok [5; 1; 3]%Z.
Proof.
  assert (DurationSlice.Swap [5; 1; 3]%Z 0 2 = Ok [3; 1; 5]%Z) as H by reflexivity.
  split; [exact H|]. exact (Swap_involutive _ _ _ _ H).
Defined.

Lemma Less_in_range (s : list Z) i j :
  (0 ≤ i < len s)%Z → (0 ≤ j < len s)%Z →
  ∃ si sj, s !! Z.to_nat i = Some si ∧ s !! Z.to_nat j = Some sj
         ∧ DurationSlice.Less s i j = Ok (bool_decide (si < sj)%Z).
Proof.
  intros Hi Hj. unfold DurationSlice.Less.
  destruct (index_in_range s i Hi) as [si Hsi].
  destruct (index_in_range s j Hj) as [sj Hsj].
  rewrite Hsi, Hsj. exists si, sj.
  apply index_Ok in Hsi as [_ Hsi]. apply index_Ok in Hsj as [_ Hsj]. done.
Qed.

(** X13.  A slice is in ascending order exactly when [Less] never puts an
    element before its predecessor; this is the case for the slice that
    [calcMedianAndAverage] leaves behind. *)
Theorem Less_sorted (s : list Z) :
  (Sorted Z.le s ↔
   ∀ i, (0 < i < len s)%Z → DurationSlice.Less s i (i - 1) = Ok false)
  ∧ ∀ i, (0 < i < len (sort_Sort s))%Z →
         DurationSlice.Less (sort_Sort s) i (i - 1) = Ok false.
Proof.
  assert (∀ l : list Z, Sorted Z.le l ↔
            ∀ i, (0 < i < len l)%Z → DurationSlice.Less l i (i - 1) = Ok false) as Hiff.
  { intros l. induction l as [|x l IH].
    - split; [|constructor]. unfold len. simpl. lia.
    - split.
      + intros Hs i Hi. apply Sorted_inv in Hs as [Hs Hhd].
        destruct (Less_in_range (x :: l) i (i - 1)) as (si & sj & Hsi & Hsj & ->);
          [unfold len in *; simpl in *; lia..|].
        f_equal. apply bool_decide_eq_false.
        destruct (decide (i = 1)%Z) as [->|Hne].
        * simpl in Hsi, Hsj. injection Hsj as <-.
          destruct l as [|y l]; [done|]. simpl in Hsi. injection Hsi as <-.
          apply HdRel_inv in Hhd. lia.
        * assert (DurationSlice.Less l (i - 1) (i - 1 - 1) = Ok false) as Hl.
          { apply (proj1 IH Hs). unfold len in *. simpl in Hi. lia. }
          destruct (Less_in_range l (i - 1) (i - 1 - 1)) as (ti & tj & Hti & Htj & Hless);
            [unfold len in *; simpl in *; lia..|].
          rewrite Hless in Hl. injection Hl as Hl. apply bool_decide_eq_false in Hl.
          replace (Z.to_nat i) with (S (Z.to_nat (i - 1))) in Hsi by lia.
          replace (Z.to_nat (i - 1)) with (S (Z.to_nat (i - 1 - 1))) in Hsj at 1 by lia.
          simpl in Hsi, Hsj. congruence.
      + intros Hless. constructor.
        * apply IH. intros i Hi.
          specialize (Hless (i + 1)%Z ltac:(unfold len in *; simpl; lia)).
          destruct (Less_in_range (x :: l) (i + 1) (i + 1 - 1)) as (si & sj & Hsi & Hsj & Hl);
            [unfold len in *; simpl in *; lia..|].
          destruct (Less_in_range l i (i - 1)) as (ti & tj & Hti & Htj & ->);
            [unfold len in *; simpl in *; lia..|].
          rewrite Hl in Hless. rewrite <-Hless.
          replace (Z.to_nat (i + 1)) with (S (Z.to_nat i)) in Hsi by lia.
          replace (Z.to_nat (i + 1 - 1)) with (S (Z.to_nat (i - 1))) in Hsj by lia.
          simpl in Hsi, Hsj. rewrite Hti in Hsi. rewrite Htj in Hsj.
          by injection Hsi as ->; injection Hsj as ->.
        * destruct l as [|y l]; constructor.
          specialize (Hless 1%Z ltac:(unfold len; simpl; lia)).
          destruct (Less_in_range (x :: y :: l) 1 (1 - 1)) as (si & sj & Hsi & Hsj & Hl);
            [unfold len; simpl; lia..|].
          rewrite Hl in Hless. simpl in Hsi, Hsj.
          injection Hsi as <-. injection Hsj as <-.
          injection Hless as Hless. apply bool_decide_eq_false in Hless. lia. }
  split; [apply Hiff|]. apply Hiff, sort_Sort_Sorted.
Qed.

(** * The pipeline with bounded channels *)

Lemma on_chan_app ch l1 l2 : on_chan ch (l1 ++ l2) = on_chan ch l1 ++ on_chan ch l2.
Proof. unfold on_chan. by rewrite filter_app, fmap_app. Qed.

Lemma on_chan_cons ch ch' qp l :
  on_chan ch ((ch', qp) :: l) = if decide (ch' = ch) then qp :: on_chan ch l else on_chan ch l.
Proof. unfold on_chan. rewrite filter_cons. simpl. by destruct (decide (ch' = ch)). Qed.

Lemma elem_of_on_chan ch qp l : qp ∈ on_chan ch l ↔ (ch, qp) ∈ l.
Proof.
  unfold on_chan. rewrite list_elem_of_fmap. split.
  - intros ([ch' qp'] & -> & [Hch Hin]%list_elem_of_filter). simpl in *. by subst.
  - intros Hin. exists (ch, qp). split; [done|]. by apply list_elem_of_filter.
Qed.

Lemma on_chan_none ch l : (∀ qp, (ch, qp) ∉ l) → on_chan ch l = [].
Proof.
  intros Hnone. destruct (on_chan ch l) as [|qp rest] eqn:E; [done|].
  destruct (Hnone qp). apply elem_of_on_chan. rewrite E. set_solver.
Qed.

(** Records routed by host: the records for a host are those of the channel
    of the host. *)
Lemma for_host_on_chan (route : string → chan) h (l : list (chan * QueryParam)) :
  (∀ ch qp, (ch, qp) ∈ l → ch = route (Host qp)) →
  for_host h (l.*2) = for_host h (on_chan (route h) l).
Proof.
  unfold for_host. induction l as [|[ch qp] l IH]; intros Hroute; [done|].
  rewrite fmap_cons, on_chan_cons. simpl.
  assert (ch = route (Host qp)) as Hch by (apply Hroute; set_solver).
  assert (∀ ch' qp', (ch', qp') ∈ l → ch' = route (Host qp')) as Hrest.
  { intros ch' qp' Hin. apply Hroute. set_solver. }
  specialize (IH Hrest).
  destruct (decide (Host qp = h)) as [Hh|Hh].
  - rewrite decide_True by congruence.
    rewrite !filter_cons_True by done. by rewrite IH.
  - rewrite filter_cons_False by done.
    destruct (decide (ch = route h)); [|done].
    by rewrite filter_cons_False by done.
Qed.

Section bounded_pipeline_facts.
Variable exec : QueryParam → Z.

Lemma bstep_step p l p' : bstep exec p l p' → step exec p p'.
Proof. destruct 1; by constructor. Qed.

Lemma bruns_cons p l q t r :
  bstep exec p l q → bruns exec q t r → bruns exec p (l :: t) r.
Proof.
  intros Hstep Hruns. induction Hruns as [q|q t q' l' r Hruns IH Hlast].
  - apply (bruns_snoc exec p [] p l q); [constructor | done].
  - rewrite app_comm_cons. eapply bruns_snoc; [by apply IH | done].
Qed.

Lemma bruns_app p t q t' r :
  bruns exec p t q → bruns exec q t' r → bruns exec p (t ++ t') r.
Proof.
  intros H1 H2. induction H2 as [q|q t' q' l r H2 IH Hlast].
  - by rewrite app_nil_r.
  - rewrite app_assoc. eapply bruns_snoc; [by apply IH | done].
Qed.

Lemma drained_work_left p : drained p ↔ work_left p = 0%nat.
Proof.
  unfold drained, work_left. destruct p as [c pend inb fl st]. simpl.
  destruct pend, inb, fl; simpl; split; try done; try lia; intros (? & ? & ?); done.
Qed.

Lemma bruns_inv_start n data :
  is_uint64 n → bruns_inv exec n data [] (start n data).
Proof.
  intros Hn. split_and!.
  - apply pipeline_inv_start.
  - by apply ctl_inv_NewController.
  - done.
  - unfold work_left. simpl. lia.
  - done.
Qed.

Lemma bruns_inv_step n data t p l p' :
  bruns_inv exec n data t p → bstep exec p l p' → bruns_inv exec n data (t ++ [l]) p'.
Proof.
  intros (Hpipe & Hctl & Hsent & Hwork & Hfifo) Hstep.
  split; [eapply pipeline_inv_step; [done | by eapply bstep_step]|].
  destruct Hstep as [c c' qp rest inb fl st ch Hd Hs Hroom
                    |c pend inb1 inb2 w qp fl st Hw Hfirst Hroom
                    |c pend inb s fl st];
    unfold work_left in *; simpl in *.
  - split_and!.
    + by eapply ctl_inv_dispatch.
    + rewrite Hs, fmap_app, <-app_assoc. done.
    + rewrite !length_app. simpl. lia.
    + intros ch'. unfold executions in *. rewrite omap_app. simpl.
      rewrite app_nil_r, Hs, !on_chan_app, app_assoc, Hfifo. done.
  - split_and!; [done | done | |].
    + rewrite !length_app in *. simpl in *. lia.
    + intros ch'. unfold executions in *. rewrite omap_app. simpl.
      rewrite <-Hfifo, !on_chan_app, !on_chan_cons, <-!app_assoc. f_equal.
      destruct (decide (receiver w = ch')) as [<-|Hne]; [|by rewrite app_nil_l].
      rewrite (on_chan_none _ inb1) by done. done.
  - split_and!; [done | done | |].
    + rewrite !length_app. simpl. lia.
    + intros ch'. unfold executions in *. rewrite omap_app. simpl.
      by rewrite app_nil_r.
Qed.

Lemma bruns_inv_runs n data t p :
  is_uint64 n → bruns exec (start n data) t p → bruns_inv exec n data t p.
Proof.
  intros Hn Hruns. remember (start n data) as p0 eqn:Hp0.
  induction Hruns as [p|p t q l r Hruns IH Hlast]; subst.
  - by apply bruns_inv_start.
  - eapply bruns_inv_step; [by apply IH | done].
Qed.

(** A state of a run that is not drained has an enabled step: the oldest
    sample can be collected; or else the oldest buffered record has a
    worker that reads its inbox; or else the next record can be dispatched. *)
Lemma bruns_inv_progress n data t p :
  bruns_inv exec n data t p → ¬ drained p → ∃ l p', bstep exec p l p'.
Proof.
  intros (Hpipe & Hctl & Hsent & Hwork & Hfifo) Hnd.
  destruct p as [c pend inb fl st]. unfold drained in Hnd. simpl in *.
  destruct fl as [|s fl].
  - destruct inb as [|[ch qp] inb].
    + destruct pend as [|qp rest]; [by destruct Hnd|].
      destruct (dispatch_total c qp Hctl) as (c' & Hd & _ & _ & _ & ch & Hs).
      eexists _, _. eapply bstep_dispatch; [done | done |].
      unfold inbox_capacity. simpl. lia.
    + assert ((ch, qp) ∈ sent c) as Hin.
      { apply elem_of_on_chan. rewrite <-(Hfifo ch). apply elem_of_app. right.
        apply elem_of_on_chan. set_solver. }
      destruct (inv_routes _ Hctl ch qp Hin) as (wh & Hwh & <-).
      pose proof (inv_bound _ Hctl _ _ Hwh) as Hroster.
      rewrite <-(inv_spawned _ Hctl) in Hroster.
      apply list_elem_of_fmap in Hroster as (w & -> & Hw).
      eexists _, _.
      apply (bstep_worker exec c pend [] inb w qp [] st Hw).
      * intros qp' Hnil. by apply elem_of_nil in Hnil.
      * unfold sample_capacity. simpl. lia.
  - eexists _, _. apply bstep_collect.
Qed.

End bounded_pipeline_facts.

(** A complete run of the bounded pipeline over three records, two of them
    for host [h1]: all records are dispatched first, then the worker of
    [h2] runs before the worker of [h1]. *)
Lemma scenario_bounded_run :
  ∃ t p,
    bruns scenario_exec
      (start 0 [mkQueryParam "h1" "t1" "t2"; mkQueryParam "h2" "t1" "t2";
                mkQueryParam "h1" "t3" "t4"]) t p
    ∧ drained p
    ∧ (executions t).*2
      = [mkQueryParam "h2" "t1" "t2"; mkQueryParam "h1" "t1" "t2";
         mkQueryParam "h1" "t3" "t4"].
Proof.
  eexists _, _. split; [|split].
  - unfold start.
    eapply bruns_cons.
    { eapply bstep_dispatch; [vm_compute; reflexivity | reflexivity
                             | unfold inbox_capacity; simpl; lia]. }
    eapply bruns_cons.
    { eapply bstep_dispatch; [vm_compute; reflexivity | reflexivity
                             | unfold inbox_capacity; simpl; lia]. }
    eapply bruns_cons.
    { eapply bstep_dispatch; [vm_compute; reflexivity | reflexivity
                             | unfold inbox_capacity; vm_compute; lia]. }
    eapply bruns_cons.
    { apply (bstep_worker scenario_exec _ _ [(2%nat, mkQueryParam "h1" "t1" "t2")]
               [(2%nat, mkQueryParam "h1" "t3" "t4")]
               (mkWorker 4 5 0) (mkQueryParam "h2" "t1" "t2") [] _).
      - apply list_elem_of_further, list_elem_of_here.
      - intros qp' Hin. apply list_elem_of_singleton in Hin. discriminate.
      - unfold sample_capacity; simpl; lia. }
    eapply bruns_cons.
    { apply (bstep_worker scenario_exec _ _ [] [(2%nat, mkQueryParam "h1" "t3" "t4")]
               (mkWorker 2 3 0) (mkQueryParam "h1" "t1" "t2") _ _).
      - apply list_elem_of_here.
      - intros qp' Hin. by apply elem_of_nil in Hin.
      - unfold sample_capacity; simpl; lia. }
    eapply bruns_cons.
    { apply (bstep_worker scenario_exec _ _ [] []
               (mkWorker 2 3 0) (mkQueryParam "h1" "t3" "t4") _ _).
      - apply list_elem_of_here.
      - intros qp' Hin. by apply elem_of_nil in Hin.
      - unfold sample_capacity; simpl; lia. }
    eapply bruns_cons; [apply bstep_collect|].
    eapply bruns_cons; [apply bstep_collect|].
    eapply bruns_cons; [apply bstep_collect|].
    apply bruns_nil.
  - done.
  - reflexivity.
Qed.

(** X14.  Whatever the schedule, a complete run collects the latency of
    every record of the input exactly once, and its report is the one that
    [Collector.Run] computes from the samples taken in input order. *)
Theorem complete_run_report
    (exec : QueryParam → Z) (n : Z) (data : list QueryParam) (p : Pipeline) :
  runs_to exec n data p →
  allQueryTimes (store p) ≡ₚ exec <$> data
  ∧ finalize (store p) = Collector_Run (Worker_sample exec <$> data).
Proof.
  intros Hrun. destruct (runs_to_outcome exec n data p Hrun) as (_ & Hperm & Hstore).
  split; [done|].
  assert (Worker_sample exec <$> data = mkWorkSample <$> (exec <$> data)) as ->.
  { by rewrite <-list_fmap_compose. }
  unfold Collector_Run. rewrite Hstore.
  destruct (collect_Permutation _ _ Hperm) as (Hn & Ht & Hmin & Hmax & Hsort).
  by apply finalize_ext.
Qed.

Lemma complete_run_report_witness :
  ∃ p,
    runs_to scenario_exec 0 (query <$> ["h1"; "h2"]) p
    ∧ allQueryTimes (store p) = [10; 30]%Z
    ∧ allQueryTimes (store p) ≡ₚ scenario_exec <$> (query <$> ["h1"; "h2"])
    ∧ finalize (store p)
      = Collector_Run (Worker_sample scenario_exec <$> (query <$> ["h1"; "h2"])).
Proof.
  destruct scenario_run_overtaking as (p & Hrun & Hall).
  exists p. split; [exact Hrun|]. split; [exact Hall|].
  exact (complete_run_report scenario_exec 0 (query <$> ["h1"; "h2"]) p Hrun).
Defined.

(** X15.  A run of the bounded pipeline over [k] records has at most [3k]
    steps, and it has drained the pipeline exactly when it has made [3k]
    steps: every schedule terminates. *)
Theorem bounded_run_length
    (exec : QueryParam → Z) (n : Z) (data : list QueryParam)
    (t : list label) (p : Pipeline) :
  is_uint64 n → bruns exec (start n data) t p →
  (length t ≤ 3 * length data)%nat
  ∧ (drained p ↔ length t = (3 * length data)%nat).
Proof.
  intros Hn Hruns.
  destruct (bruns_inv_runs exec n data t p Hn Hruns) as (_ & _ & _ & Hwork & _).
  rewrite drained_work_left. lia.
Qed.

Lemma bounded_run_length_witness :
  ∃ t p,
    is_uint64 0
    ∧ bruns scenario_exec
        (start 0 [mkQueryParam "h1" "t1" "t2"; mkQueryParam "h2" "t1" "t2";
                  mkQueryParam "h1" "t3" "t4"]) t p
    ∧ (length t ≤ 3 * 3)%nat
    ∧ (drained p ↔ length t = (3 * 3)%nat).
Proof.
  destruct scenario_bounded_run as (t & p & Hruns & _ & _).
  assert (is_uint64 0) as Hn by (unfold is_uint64, uint64_max; lia).
  exists t, p. split; [exact Hn|]. split; [exact Hruns|].
  exact (bounded_run_length scenario_exec 0 _ t p Hn Hruns).
Defined.

(** X16.  The bounded pipeline never gets stuck: a state reached by a run
    that has not drained the pipeline has an enabled step, and every run
    can be continued to a drained pipeline. *)
Theorem bounded_pipeline_completes
    (exec : QueryParam → Z) (n : Z) (data : list QueryParam)
    (t : list label) (p : Pipeline) :
  is_uint64 n → bruns exec (start n data) t p →
  (¬ drained p → ∃ l p', bstep exec p l p')
  ∧ ∃ t' p', bruns exec p t' p' ∧ drained p'.
Proof.
  intros Hn Hruns.
  pose proof (bruns_inv_runs exec n data t p Hn Hruns) as Hinv.
  split; [by eapply bruns_inv_progress|].
  clear Hruns. remember (work_left p) as k eqn:Hk.
  revert t p Hinv Hk. induction k as [|k IH]; intros t p Hinv Hk.
  - exists [], p. split; [constructor|]. by apply drained_work_left.
  - destruct (bruns_inv_progress exec n data t p Hinv) as (l & q & Hstep).
    { rewrite drained_work_left. lia. }
    pose proof (bruns_inv_step exec n data t p l q Hinv Hstep) as Hinv'.
    destruct Hinv as (_ & _ & _ & Hw & _). destruct Hinv' as (Hq1 & Hq2 & Hq3 & Hw' & Hq5).
    destruct (IH (t ++ [l]) q) as (t' & p' & Hrest & Hdone).
    { by split_and!. }
    { rewrite length_app in Hw'. simpl in Hw'. lia. }
    exists (l :: t'), p'. split; [by eapply bruns_cons | done].
Qed.

Lemma bounded_pipeline_completes_witness :
  is_uint64 2 ∧
  bruns scenario_exec (start 2 (query <$> ["h1"; "h2"; "h3"])) []
    (start 2 (query <$> ["h1"; "h2"; "h3"])) ∧
  (¬ drained (start 2 (query <$> ["h1"; "h2"; "h3"])) →
     ∃ l p', bstep scenario_exec (start 2 (query <$> ["h1"; "h2"; "h3"])) l p')
  ∧ ∃ t' p', bruns scenario_exec (start 2 (query <$> ["h1"; "h2"; "h3"])) t' p'
             ∧ drained p'.
Proof.
  assert (is_uint64 2) as Hn by (unfold is_uint64, uint64_max; lia).
  split; [exact Hn|]. split; [apply bruns_nil|].
  exact (bounded_pipeline_completes scenario_exec 2 _ [] _ Hn
           (bruns_nil scenario_exec _)).
Defined.

(** X17.  In a complete run of the bounded pipeline every query is executed
    by the worker that the routing table binds to its host, and the queries
    of a host are executed in the order of the input. *)
Theorem per_host_order
    (exec : QueryParam → Z) (n : Z) (data : list QueryParam)
    (t : list label) (p : Pipeline) :
  is_uint64 n → bruns exec (start n data) t p → drained p →
  (∀ ch qp, (ch, qp) ∈ executions t →
     ∃ w, workerMap (controller p) !! Host qp = Some w ∧ WorkOut w = ch)
  ∧ (∀ h, for_host h (executions t).*2 = for_host h data).
Proof.
  intros Hn Hruns (Hpend & Hinb & Hfl).
  destruct (bruns_inv_runs exec n data t p Hn Hruns) as (_ & Hctl & Hsent & _ & Hfifo).
  rewrite Hpend, app_nil_r in Hsent.
  assert (∀ ch, on_chan ch (executions t) = on_chan ch (sent (controller p))) as Hfifo'.
  { intros ch. rewrite <-Hfifo, Hinb. unfold on_chan at 2. simpl. by rewrite app_nil_r. }
  assert (∀ ch qp, (ch, qp) ∈ executions t → (ch, qp) ∈ sent (controller p)) as Hsub.
  { intros ch qp Hin. apply elem_of_on_chan. rewrite <-Hfifo'. by apply elem_of_on_chan. }
  split.
  - intros ch qp Hin. apply (inv_routes _ Hctl). by apply Hsub.
  - intros h.
    set (route := λ h', match workerMap (controller p) !! h' with
                        | Some w => WorkOut w
                        | None => 0%nat
                        end).
    assert (∀ ch qp, (ch, qp) ∈ sent (controller p) → ch = route (Host qp)) as Hroute.
    { intros ch qp Hin. destruct (inv_routes _ Hctl ch qp Hin) as (w & Hw & <-).
      unfold route. by rewrite Hw. }
    rewrite (for_host_on_chan route h (executions t)) by (intros; by apply Hroute, Hsub).
    rewrite Hfifo', <-(for_host_on_chan route h _ Hroute). by rewrite Hsent.
Qed.

Lemma per_host_order_witness :
  ∃ t p,
    is_uint64 0
    ∧ bruns scenario_exec
        (start 0 [mkQueryParam "h1" "t1" "t2"; mkQueryParam "h2" "t1" "t2";
                  mkQueryParam "h1" "t3" "t4"]) t p
    ∧ drained p
    ∧ (executions t).*2
      = [mkQueryParam "h2" "t1" "t2"; mkQueryParam "h1" "t1" "t2";
         mkQueryParam "h1" "t3" "t4"]
    ∧ (∀ ch qp, (ch, qp) ∈ executions t →
         ∃ w, workerMap (controller p) !! Host qp = Some w ∧ WorkOut w = ch)
    ∧ (∀ h, for_host h (executions t).*2
            = for_host h [mkQueryParam "h1" "t1" "t2"; mkQueryParam "h2" "t1" "t2";
                          mkQueryParam "h1" "t3" "t4"]).
Proof.
  destruct scenario_bounded_run as (t & p & Hruns & Hdone & Hexec).
  assert (is_uint64 0) as Hn by (unfold is_uint64, uint64_max; lia).
  exists t, p. split; [exact Hn|]. split; [exact Hruns|]. split; [exact Hdone|].
  split; [exact Hexec|].
  exact (per_host_order scenario_exec 0 _ t p Hn Hruns Hdone).
Defined.

(** * The cycle of overflow assignments *)

Lemma overflow_choices_from k : ∀ c,
  (1 ≤ len (workers c) ≤ int_max)%Z → (0 ≤ lbIndex c < len (workers c))%Z →
  ∃ ws, overflow_choices c k = Ok ws
    ∧ length ws = k
    ∧ ∀ j w, ws !! j = Some w →
        workers c !! (let r := ((Z.to_nat (lbIndex c) + j) mod length (workers c))%nat in
                      if decide (r = length (workers c) - 1)%nat then 0%nat else r)
        = Some w.
Proof.
  induction k as [|k IH]; intros c Hlen Hcur; simpl.
  - exists []. split; [done|]. split; [done|]. intros j w Hj. done.
  - destruct (roundRobinSelect_in_range c ltac:(lia) Hcur) as (w0 & Hrr & Hw0).
    rewrite Hrr. simpl.
    set (c' := set_lbIndex c _) in *.
    assert (workers c' = workers c) as Hws by done.
    destruct (IH c') as (ws & Hws' & Hlen' & Hpick).
    { by rewrite Hws. }
    { rewrite Hws. simpl. case_decide; lia. }
    rewrite Hws'. simpl. exists (w0 :: ws). split; [done|]. split; [by rewrite <-Hlen'|].
    unfold len in *. set (n := length (workers c)) in *.
    intros [|j] w Hj; simpl in Hj.
    + injection Hj as <-. simpl. rewrite Nat.add_0_r, Nat.mod_small by lia.
      rewrite <-Hw0. f_equal.
      destruct (decide (Z.of_nat n = lbIndex c + 1)%Z), (decide (Z.to_nat (lbIndex c) = n - 1)%nat);
        lia.
    + specialize (Hpick j w Hj). rewrite Hws in Hpick. fold n in Hpick.
      simpl in Hpick. rewrite <-Hpick. simpl.
      assert (((Z.to_nat (lbIndex c) + S j) mod n)%nat
              = ((Z.to_nat (if decide (Z.of_nat n = lbIndex c + 1)%Z
                            then 0 else lbIndex c + 1)%Z + j) mod n)%nat) as ->; [|done].
      destruct (decide (Z.of_nat n = lbIndex c + 1)%Z) as [Hlast|Hin].
      * replace (Z.to_nat (lbIndex c) + S j)%nat with (j + 1 * n)%nat by lia.
        rewrite Nat.Div0.mod_add. done.
      * f_equal. lia.
Qed.

(** X18.  The overflow assignments of a full roster of [n] workers repeat
    with period [n]: the assignment number [j] (from [0]) goes to the worker
    in position [j mod n] of the roster, except that in the place of the
    last position the first worker is chosen again. *)
Theorem overflow_choices_cycle (c : Controller) (k : nat) :
  (1 ≤ len (workers c) ≤ int_max)%Z → lbIndex c = 0%Z →
  ∃ ws, overflow_choices c k = Ok ws
    ∧ length ws = k
    ∧ ∀ j w, ws !! j = Some w →
        workers c !! (let r := (j mod length (workers c))%nat in
                      if decide (r = length (workers c) - 1)%nat then 0%nat else r)
        = Some w.
Proof.
  intros Hlen Hcur.
  destruct (overflow_choices_from k c Hlen ltac:(lia)) as (ws & Hws & Hk & Hpick).
  exists ws. split; [done|]. split; [done|].
  intros j w Hj. specialize (Hpick j w Hj). by rewrite Hcur in Hpick.
Qed.

Lemma overflow_choices_cycle_witness :
  ∃ c,
    Run 3 (query <$> ["h1"; "h2"; "h3"]) = Ok c
    ∧ (1 ≤ len (workers c) ≤ int_max)%Z ∧ lbIndex c = 0%Z
    ∧ ∃ ws, overflow_choices c 7 = Ok ws
        ∧ length ws = 7%nat
        ∧ ∀ j w, ws !! j = Some w →
            workers c !! (let r := (j mod length (workers c))%nat in
                          if decide (r = length (workers c) - 1)%nat then 0%nat else r)
            = Some w.
Proof.
  destruct (Run 3 (query <$> ["h1"; "h2"; "h3"])) as [c|] eqn:Hrun;
    [|by vm_compute in Hrun].
  exists c. split; [done|].
  assert (workers c = [mkWorkerHandle 2 3; mkWorkerHandle 4 5; mkWorkerHandle 6 7]
          ∧ lbIndex c = 0%Z) as [Hws Hcur].
  { vm_compute in Hrun. by injection Hrun as <-. }
  assert (1 ≤ len (workers c) ≤ int_max)%Z as Hlen.
  { rewrite Hws. unfold len, int_max. simpl. lia. }
  split; [exact Hlen|]. split; [exact Hcur|].
  exact (overflow_choices_cycle c 7 Hlen Hcur).
Defined.

(** * Per-worker statistics *)

Lemma record_all_snoc names w :
  WorkerOps.record_all (names ++ [w]) = WorkerOps.record (WorkerOps.record_all names) w.
Proof. unfold WorkerOps.record_all. by rewrite foldl_snoc. Qed.

Lemma filter_eq_nil (x : string) (names : list string) :
  x ∉ names → filter (λ y, y = x) names = [].
Proof.
  intros Hx. destruct (filter (λ y, y = x) names) as [|y rest] eqn:E; [done|].
  assert (y ∈ filter (λ y, y = x) names) as Hy by (rewrite E; set_solver).
  apply list_elem_of_filter in Hy as [-> Hy]. done.
Qed.

(** X19.  After any sequence of samples (fewer than [2^64]), the entry of a
    worker in [workerOps] is the number of samples it has sent, a worker
    that has sent none has no entry, and the number of entries, reported as
    the workers spawned, is the number of distinct workers heard from. *)
Theorem workerOps_counts (names : list string) :
  (len names ≤ uint64_max)%Z →
  (∀ w, WorkerOps.record_all names !! w
        = if decide (w ∈ names) then Some (WorkerOps.samples_of w names) else None)
  ∧ size (WorkerOps.record_all names) = size (list_to_set names : gset string).
Proof.
  intros Hlen.
  assert (∀ w, WorkerOps.record_all names !! w
               = if decide (w ∈ names) then Some (WorkerOps.samples_of w names) else None)
    as Hlookup.
  { induction names as [|x names IH] using rev_ind; intros w.
    - rewrite decide_False by set_solver. done.
    - rewrite len_app in Hlen. unfold len at 2 in Hlen. simpl in Hlen.
      pose proof (len_nonneg names).
      specialize (IH ltac:(lia)).
      rewrite record_all_snoc. unfold WorkerOps.record. rewrite (IH x).
      unfold WorkerOps.samples_of in *. rewrite filter_app, len_app.
      assert (len (filter (λ y, y = x) names) ≤ len names)%Z as Hle.
      { unfold len. pose proof (length_filter (λ y, y = x) names). lia. }
      destruct (decide (w = x)) as [->|Hne].
      + rewrite (decide_True (P := x ∈ names ++ [x])) by set_solver.
        rewrite filter_singleton_True by done.
        destruct (decide (x ∈ names)) as [Hin|Hnin].
        * rewrite lookup_insert_eq. f_equal. unfold len at 3. simpl.
          apply wrap_uint64_id. unfold is_uint64. pose proof (len_nonneg (filter (λ y, y = x) names)). lia.
        * rewrite lookup_insert_eq. f_equal. by rewrite filter_eq_nil.
      + rewrite filter_singleton_False by done. rewrite Z.add_0_r.
        assert (w ∈ names ++ [x] ↔ w ∈ names) as Hiff by set_solver.
        destruct (decide (x ∈ names)); rewrite lookup_insert_ne by done;
          rewrite IH; destruct (decide (w ∈ names)), (decide (w ∈ names ++ [x])); tauto || done. }
  split; [done|].
  rewrite <-size_dom. f_equal. apply set_eq. intros w.
  rewrite elem_of_dom, Hlookup, elem_of_list_to_set.
  destruct (decide (w ∈ names)); split; (done || by intros [? ?] || eauto).
Qed.

Lemma workerOps_counts_witness :
  (len ["h1"; "h2"; "h1"] ≤ uint64_max)%Z ∧
  (∀ w, WorkerOps.record_all ["h1"; "h2"; "h1"] !! w
        = if decide (w ∈ ["h1"; "h2"; "h1"])
          then Some (WorkerOps.samples_of w ["h1"; "h2"; "h1"]) else None)
  ∧ size (WorkerOps.record_all ["h1"; "h2"; "h1"])
    = size (list_to_set ["h1"; "h2"; "h1"] : gset string).
Proof.
  assert (len ["h1"; "h2"; "h1"] ≤ uint64_max)%Z as H
    by (unfold len, uint64_max; simpl; lia).
  split; [exact H|]. exact (workerOps_counts _ H).
Defined.
